(** * Streaming spectral-transport engine: a shallow embedding

    The two real-time engines of the repository (the CDF engine
    [RealtimeAudioTransport] and the reassignment engine
    [RealtimeReassignmentTransport]) and the transport routines of
    [audio_transport.cpp] are transcribed as Rocq functions.

    Numbers.  Every finite [double] or [float] is a rational number, so the
    C++ floating-point values are modelled as [Q] and their arithmetic is
    taken exact (no rounding, no NaN, no infinity; [std::isfinite] is
    always true and the casts between [float] and [double] are the
    identity).  [int] and [size_t] quantities that are never negative in
    the source are [nat]; those that can go below zero are [Z].

    External code.  FFTW, the functions of <cmath>/<complex> and the window
    functions of [spectral.hpp] are not part of the sources at hand: they
    are the fields of the class [Kernel], and what a theorem needs of them
    is a hypothesis of that theorem. *)

From Stdlib Require Import ZArith QArith Qround Qabs Lia Lqa List.
From stdpp Require Import base list.
Import ListNotations.

Open Scope Q_scope.

(** ** Numeric prelude *)

Module Num.

(** [const double eps = 1e-10] and [MIN_MASS_THRESHOLD = 1e-10]. *)
Definition eps : Q := 1 # 10000000000.

(** [x < y] and [x > y] on doubles, as booleans. *)
Definition Qltb (x y : Q) : bool := negb (Qle_bool y x).
Definition Qgtb (x y : Q) : bool := Qltb y x.
(** [x >= y]. *)
Definition Qgeb (x y : Q) : bool := Qle_bool y x.

(** [std::max(a, b)] is [(a < b) ? b : a]; [std::min(a, b)] is
    [(b < a) ? b : a]. *)
Definition std_max (a b : Q) : Q := if Qltb a b then b else a.
Definition std_min (a b : Q) : Q := if Qltb b a then b else a.

(** [v[i]] of a [std::vector<double>]; reading out of range is undefined
    in the source and gives 0 here. *)
Definition vget (v : list Q) (i : nat) : Q := nth i v 0.

(** [v[i]] of a [std::vector<int>]. *)
Definition vgetZ (v : list Z) (i : nat) : Z := nth i v 0%Z.

(** [for (int i = 0; i < n; ++i) body], threading the variables the body
    assigns. *)
Definition for_loop {S : Type} (n : nat) (body : nat -> S -> S) (s : S) : S :=
  fold_left (fun s i => body i s) (seq 0 n) s.

(** [for (size_t j = lo; j < hi; j++) body]. *)
Definition for_range {S : Type} (lo hi : nat) (body : nat -> S -> S) (s : S) : S :=
  fold_left (fun s i => body i s) (seq lo (hi - lo)) s.

(** Sum of a list, left to right from 0. *)
Definition Qsum (l : list Q) : Q := fold_left Qplus l 0.

(** Every element is (a representation of) zero. *)
Definition all_zero (l : list Q) : Prop := Forall (fun x => x == 0) l.

(** Both samples of every pair of input samples are zero. *)
Definition zero_input (input : list (Q * Q)) : Prop :=
  Forall (fun x => fst x == 0 /\ snd x == 0) input.

End Num.
Import Num.

(** ** The CDF transport-map builder
    [RealtimeAudioTransport::computeTransportMap] *)

Module CdfMap.

(** The [while (left <= right)] loop of the binary search.  [fuel] bounds
    the number of iterations; the interval shrinks at every iteration, so
    [right - left + 2] iterations are never exhausted (lemma
    [bsearch_spec] below asks for no more). *)
Fixpoint bsearch (fuel : nat) (cdf_Y : list Q) (target : Q)
    (left right result : Z) : Z :=
  match fuel with
  | O => result
  | S fuel' =>
      if (left <=? right)%Z then
        let mid := ((left + right) ÷ 2)%Z in
        if Qgeb (vget cdf_Y (Z.to_nat mid)) target
        then bsearch fuel' cdf_Y target left (mid - 1) mid
        else bsearch fuel' cdf_Y target (mid + 1) right result
      else result
  end.

(** The two accumulation loops, totals and then running normalised sums,
    each written for one spectrum (the source runs them for both spectra
    at once). *)
Definition total (num_bins : nat) (mag : list Q) : Q :=
  for_loop num_bins (fun i s => s + vget mag i) 0.

Definition cdf (num_bins : nat) (mag : list Q) (sum : Q) : list Q :=
  snd (for_loop num_bins
         (fun i '(cumsum, out) =>
            let cumsum' := cumsum + vget mag i / sum in
            (cumsum', <[i := cumsum']> out))
         (0, replicate num_bins 0)).

Definition computeTransportMap (num_bins : nat) (mag_X mag_Y : list Q)
    : list Z :=
  let sum_X := std_max (total num_bins mag_X) eps in
  let sum_Y := std_max (total num_bins mag_Y) eps in
  let cdf_X := cdf num_bins mag_X sum_X in
  let cdf_Y := cdf num_bins mag_Y sum_Y in
  for_loop num_bins
    (fun i transport_map =>
       let result :=
         bsearch (S (S num_bins)) cdf_Y (vget cdf_X i - eps)
                 0 (Z.of_nat num_bins - 1) (Z.of_nat num_bins - 1) in
       <[i := result]> transport_map)
    (replicate num_bins 0%Z).

(** Following the words of the specification: the cumulative distribution
    [F[i] = (sum over j <= i of |X[j]|) / S] with [S] the total mass
    clamped to at least [eps]. *)
Definition F_spec (mag : list Q) (i : nat) : Q :=
  Qsum (take (S i) mag) / std_max (Qsum mag) eps.

End CdfMap.

(** ** Complex numbers and the external numeric kernel *)

Module Cx.

(** [std::complex<double>] as real and imaginary part. *)
Definition C : Type := (Q * Q)%type.

Definition Czero : C := (0, 0).
Definition re (z : C) : Q := fst z.
Definition im (z : C) : Q := snd z.
Definition Cadd (a b : C) : C := (re a + re b, im a + im b).
(** [z *= r] with [r] a double. *)
Definition Cscale (z : C) (r : Q) : C := (re z * r, im z * r).
(** [a / b]. *)
Definition Cdiv (a b : C) : C :=
  let d := re b * re b + im b * im b in
  ((re a * re b + im a * im b) / d, (im a * re b - re a * im b) / d).

Definition Cis_zero (z : C) : Prop := re z == 0 /\ im z == 0.

(** [v[i]] of a vector of complex numbers. *)
Definition cget (v : list C) (i : nat) : C := nth i v Czero.

End Cx.
Import Cx.

(** What the engines call and the sources at hand do not define: <cmath>
    and <complex>, the FFTW plans, and the three window functions of
    [spectral.hpp].  [fftw_r2c n x] is the execution of a real-to-complex
    plan of size [n] (the [n/2+1] bins of the [n] reals [x]); [fftw_c2r n X]
    that of the complex-to-real plan. *)
Class Kernel : Type := {
  M_PI : Q;
  cos : Q -> Q;
  cabs : C -> Q;
  carg : C -> Q;
  polar : Q -> Q -> C;
  fftw_r2c : nat -> list Q -> list C;
  fftw_c2r : nat -> list C -> list Q;
  hann : Q -> nat -> Q;
  hann_t : Q -> nat -> Q -> Q;
  hann_d : Q -> nat -> Q -> Q
}.

(** The facts about the kernel that silence relies on: the transforms of
    an all-zero buffer are all zero, [std::abs(0) = 0] and a polar number
    of magnitude 0 is 0. *)
Record KernelZero (K : Kernel) : Prop := {
  cabs_zero : forall z, Cis_zero z -> cabs z == 0;
  polar_zero : forall m phi, m == 0 -> Cis_zero (polar m phi);
  r2c_zero : forall n x, all_zero x -> Forall Cis_zero (fftw_r2c n x);
  c2r_zero : forall n X, Forall Cis_zero X -> all_zero (fftw_c2r n X)
}.

(** ** The CDF engine: [RealtimeAudioTransport] *)

Module Cdf.
Import CdfMap.

(** The three accumulators of [interpolateSpectrum]. *)
Record acc := {
  mag_out : list Q;
  weight_sum : list Q;
  phase_num : list Q
}.

(** The three [+=] of one deposit into bin [b]. *)
Definition deposit (b : nat) (weight phase : Q) (a : acc) : acc :=
  {| mag_out := <[b := vget (mag_out a) b + weight]> (mag_out a);
     weight_sum := <[b := vget (weight_sum a) b + weight]> (weight_sum a);
     phase_num := <[b := vget (phase_num a) b + weight * phase]> (phase_num a) |}.

(** [std::max(0, std::min(b, num_bins_ - 1))]. *)
Definition clamp_bin (num_bins : nat) (b : Z) : Z :=
  Z.max 0 (Z.min b (Z.of_nat num_bins - 1)).

(** The body of the accumulation loop, for source bin [i]. *)
Definition accumulate (num_bins : nat) (mag_X phase_X mag_Y : list Q)
    (transport_map : list Z) (k : Q) (i : nat) (a : acc) : acc :=
  let target_pos :=
    (1 - k) * inject_Z (Z.of_nat i) + k * inject_Z (vgetZ transport_map i) in
  let target_idx := vgetZ transport_map i in
  let interp_mag :=
    (1 - k) * vget mag_X i + k * vget mag_Y (Z.to_nat target_idx) in
  let low_bin0 := Qfloor target_pos in
  let high_bin0 := Qceiling target_pos in
  let frac := target_pos - inject_Z low_bin0 in
  let low_bin := clamp_bin num_bins low_bin0 in
  let high_bin := clamp_bin num_bins high_bin0 in
  let a1 :=
    if (low_bin <? Z.of_nat num_bins)%Z
    then deposit (Z.to_nat low_bin) ((1 - frac) * interp_mag) (vget phase_X i) a
    else a in
  if ((high_bin <? Z.of_nat num_bins)%Z && negb (high_bin =? low_bin)%Z)%bool
  then deposit (Z.to_nat high_bin) (frac * interp_mag) (vget phase_X i) a1
  else a1.

(** [interpolateSpectrum], given the transport map. *)
Definition interpolate_with (num_bins : nat)
    (mag_X phase_X mag_Y phase_Y : list Q) (transport_map : list Z) (k : Q)
    : list Q * list Q :=
  let a :=
    for_loop num_bins
      (accumulate num_bins mag_X phase_X mag_Y transport_map k)
      {| mag_out := replicate num_bins 0;
         weight_sum := replicate num_bins eps;
         phase_num := replicate num_bins 0 |} in
  let phase_out :=
    for_loop num_bins
      (fun i out =>
         if Qgtb (vget (weight_sum a) i) eps
         then <[i := vget (phase_num a) i / vget (weight_sum a) i]> out
         else <[i := vget phase_Y i]> out)
      (replicate num_bins 0) in
  (mag_out a, phase_out).

(** [RealtimeAudioTransport::interpolateSpectrum]: the map is computed
    first, on every call. *)
Definition interpolateSpectrum (num_bins : nat)
    (mag_X phase_X mag_Y phase_Y : list Q) (k : Q) : list Q * list Q :=
  let transport_map := computeTransportMap num_bins mag_X mag_Y in
  interpolate_with num_bins mag_X phase_X mag_Y phase_Y transport_map k.

(** The members of the class ([spectrum_*_] and the FFTW buffers are
    scratch space, overwritten before they are read at every hop). *)
Record t := {
  sample_rate_ : Q;
  window_size_ : nat;
  hop_size_ : nat;
  fft_size_ : nat;
  num_bins_ : nat;
  main_buffer_ : list Q;
  sidechain_buffer_ : list Q;
  output_buffer_ : list Q;
  buffer_write_pos_ : nat;
  buffer_read_pos_ : nat;
  samples_in_buffer_ : nat;
  window_ : list Q;
  phases_ : list Q;
  ola_buffer_ : list Q;
  ola_write_pos_ : nat
}.

(** [static_cast<int>(x)]: truncation towards zero. *)
Definition Qtrunc (x : Q) : Z := (Qnum x ÷ Zpos (Qden x))%Z.

(** [pow(2, ceil(log2(w)))] as an [int], for a window of [w] samples
    ([log2(0)] is minus infinity, which gives 0). *)
Definition next_pow2 (w : Z) : Z :=
  if (w <=? 0)%Z then 0%Z else (2 ^ Z.log2_up w)%Z.

Section Engine.
Context {K : Kernel}.

(** The constructor.  [sample_rate] and [window_ms] are doubles,
    [hop_divisor] and [fft_mult] ints; the sizes it computes are ints used
    as vector lengths. *)
Definition new (sample_rate window_ms : Q) (hop_divisor fft_mult : Z) : t :=
  let window_size := Qtrunc (window_ms * sample_rate / 1000) in
  let hop_size := (window_size ÷ hop_divisor)%Z in
  let fft_size := (next_pow2 window_size * fft_mult)%Z in
  let num_bins := (fft_size ÷ 2 + 1)%Z in
  {| sample_rate_ := sample_rate;
     window_size_ := Z.to_nat window_size;
     hop_size_ := Z.to_nat hop_size;
     fft_size_ := Z.to_nat fft_size;
     num_bins_ := Z.to_nat num_bins;
     main_buffer_ := replicate (Z.to_nat window_size) 0;
     sidechain_buffer_ := replicate (Z.to_nat window_size) 0;
     output_buffer_ := replicate (Z.to_nat window_size) 0;
     buffer_write_pos_ := 0;
     buffer_read_pos_ := 0;
     samples_in_buffer_ := 0;
     window_ :=
       map (fun i =>
              (1 # 2) * (1 - cos (2 * M_PI * inject_Z (Z.of_nat i)
                                  / inject_Z (window_size - 1))))
           (seq 0 (Z.to_nat window_size));
     phases_ := replicate (Z.to_nat num_bins) 0;
     ola_buffer_ := replicate (Z.to_nat window_size * 2)%nat 0;
     ola_write_pos_ := 0 |}.

(** [int getLatencySamples() const { return window_size_ / 2; }] *)
Definition getLatencySamples (st : t) : nat := (window_size_ st / 2)%nat.

(** [std::fill(v.begin(), v.end(), 0.0)]. *)
Definition fill0 (v : list Q) : list Q := replicate (length v) 0.

Definition reset (st : t) : t :=
  {| sample_rate_ := sample_rate_ st;
     window_size_ := window_size_ st;
     hop_size_ := hop_size_ st;
     fft_size_ := fft_size_ st;
     num_bins_ := num_bins_ st;
     main_buffer_ := fill0 (main_buffer_ st);
     sidechain_buffer_ := fill0 (sidechain_buffer_ st);
     output_buffer_ := fill0 (output_buffer_ st);
     buffer_write_pos_ := 0;
     buffer_read_pos_ := 0;
     samples_in_buffer_ := 0;
     window_ := window_ st;
     phases_ := fill0 (phases_ st);
     ola_buffer_ := fill0 (ola_buffer_ st);
     ola_write_pos_ := 0 |}.

(** [computeSTFT]: window, zero-pad, transform, keep [num_bins_] bins. *)
Definition computeSTFT (st : t) (input_buffer : list Q) : list C :=
  let padding_offset := ((fft_size_ st - window_size_ st) / 2)%nat in
  let fft_input :=
    for_loop (window_size_ st)
      (fun i b =>
         <[(padding_offset + i)%nat := vget input_buffer i * vget (window_ st) i]> b)
      (replicate (fft_size_ st) 0) in
  let fft_output := fftw_r2c (fft_size_ st) fft_input in
  map (fun i => cget fft_output i) (seq 0 (num_bins_ st)).

(** [computeISTFT]: inverse transform, window again, scale by
    [1.0 / fft_size_]. *)
Definition computeISTFT (st : t) (spectrum : list C) : list Q :=
  let ifft_input := map (fun i => cget spectrum i) (seq 0 (num_bins_ st)) in
  let ifft_output := fftw_c2r (fft_size_ st) ifft_input in
  let padding_offset := ((fft_size_ st - window_size_ st) / 2)%nat in
  let norm := 1 / inject_Z (Z.of_nat (fft_size_ st)) in
  map (fun i =>
         vget ifft_output (padding_offset + i)%nat * vget (window_ st) i * norm)
      (seq 0 (window_size_ st)).

(** The body of [if (samples_in_buffer_ >= hop_size_)]: one hop. *)
Definition hop (k_value : Q) (st : t) : t :=
  let main_frame :=
    map (fun j => vget (main_buffer_ st)
                    ((buffer_read_pos_ st + j) mod window_size_ st)%nat)
        (seq 0 (window_size_ st)) in
  let sidechain_frame :=
    map (fun j => vget (sidechain_buffer_ st)
                    ((buffer_read_pos_ st + j) mod window_size_ st)%nat)
        (seq 0 (window_size_ st)) in
  let spectrum_main := computeSTFT st main_frame in
  let spectrum_sidechain := computeSTFT st sidechain_frame in
  let mag_X := map (fun j => cabs (cget spectrum_main j)) (seq 0 (num_bins_ st)) in
  let mag_Y := map (fun j => cabs (cget spectrum_sidechain j)) (seq 0 (num_bins_ st)) in
  let phase_X := map (fun j => carg (cget spectrum_main j)) (seq 0 (num_bins_ st)) in
  let phase_Y := map (fun j => carg (cget spectrum_sidechain j)) (seq 0 (num_bins_ st)) in
  let '(mag_out, phase_out) :=
    interpolateSpectrum (num_bins_ st) mag_X phase_X mag_Y phase_Y k_value in
  let spectrum_output :=
    map (fun j => polar (vget mag_out j) (vget phase_out j))
        (seq 0 (num_bins_ st)) in
  let output_frame := computeISTFT st spectrum_output in
  let ola :=
    for_loop (window_size_ st)
      (fun j ola =>
         let ola_idx := ((ola_write_pos_ st + j) mod length (ola_buffer_ st))%nat in
         <[ola_idx := vget ola ola_idx + vget output_frame j]> ola)
      (ola_buffer_ st) in
  {| sample_rate_ := sample_rate_ st;
     window_size_ := window_size_ st;
     hop_size_ := hop_size_ st;
     fft_size_ := fft_size_ st;
     num_bins_ := num_bins_ st;
     main_buffer_ := main_buffer_ st;
     sidechain_buffer_ := sidechain_buffer_ st;
     output_buffer_ := output_buffer_ st;
     buffer_write_pos_ := buffer_write_pos_ st;
     buffer_read_pos_ := ((buffer_read_pos_ st + hop_size_ st) mod window_size_ st)%nat;
     samples_in_buffer_ := (samples_in_buffer_ st - hop_size_ st)%nat;
     window_ := window_ st;
     phases_ := phases_ st;
     ola_buffer_ := ola;
     ola_write_pos_ := ola_write_pos_ st |}.

(** The two engines agree on everything the constructor fixes. *)
Definition same_config (st st' : t) : Prop :=
  sample_rate_ st' = sample_rate_ st /\
  window_size_ st' = window_size_ st /\
  hop_size_ st' = hop_size_ st /\
  fft_size_ st' = fft_size_ st /\
  num_bins_ st' = num_bins_ st /\
  window_ st' = window_ st /\
  length (main_buffer_ st') = length (main_buffer_ st) /\
  length (sidechain_buffer_ st') = length (sidechain_buffer_ st) /\
  length (ola_buffer_ st') = length (ola_buffer_ st).

(** One iteration of the sample loop of [process]: store the two input
    samples, run a hop when one is due, pop one output sample. *)
Definition process_sample (k_value : Q) (st : t) (x : Q * Q) : t * Q :=
  let st1 :=
    {| sample_rate_ := sample_rate_ st;
       window_size_ := window_size_ st;
       hop_size_ := hop_size_ st;
       fft_size_ := fft_size_ st;
       num_bins_ := num_bins_ st;
       main_buffer_ := <[buffer_write_pos_ st := fst x]> (main_buffer_ st);
       sidechain_buffer_ := <[buffer_write_pos_ st := snd x]> (sidechain_buffer_ st);
       output_buffer_ := output_buffer_ st;
       buffer_write_pos_ := ((buffer_write_pos_ st + 1) mod window_size_ st)%nat;
       buffer_read_pos_ := buffer_read_pos_ st;
       samples_in_buffer_ := (samples_in_buffer_ st + 1)%nat;
       window_ := window_ st;
       phases_ := phases_ st;
       ola_buffer_ := ola_buffer_ st;
       ola_write_pos_ := ola_write_pos_ st |} in
  let st2 :=
    if (hop_size_ st1 <=? samples_in_buffer_ st1)%nat then hop k_value st1 else st1 in
  ({| sample_rate_ := sample_rate_ st2;
       window_size_ := window_size_ st2;
       hop_size_ := hop_size_ st2;
       fft_size_ := fft_size_ st2;
       num_bins_ := num_bins_ st2;
       main_buffer_ := main_buffer_ st2;
       sidechain_buffer_ := sidechain_buffer_ st2;
       output_buffer_ := output_buffer_ st2;
       buffer_write_pos_ := buffer_write_pos_ st2;
       buffer_read_pos_ := buffer_read_pos_ st2;
       samples_in_buffer_ := samples_in_buffer_ st2;
       window_ := window_ st2;
       phases_ := phases_ st2;
       ola_buffer_ := <[ola_write_pos_ st2 := 0]> (ola_buffer_ st2);
       ola_write_pos_ := ((ola_write_pos_ st2 + 1) mod length (ola_buffer_ st2))%nat |},
    vget (ola_buffer_ st2) (ola_write_pos_ st2)).

(** [process(input_main, input_sidechain, output, buffer_size, k_value)]:
    the inputs are the list of the [buffer_size] pairs
    [(input_main[i], input_sidechain[i])]; the result is the engine after
    the call and the [buffer_size] samples written to [output]. *)
Definition process (st : t) (input : list (Q * Q)) (k_value : Q)
    : t * list Q :=
  fold_left
    (fun acc x =>
       (fst (process_sample k_value (fst acc) x),
        snd acc ++ [snd (process_sample k_value (fst acc) x)]))
    input (st, []).

(** Consecutive calls of [process], one per buffer, with the same
    [k_value]; the outputs of the calls one after the other. *)
Definition process_calls (st : t) (buffers : list (list (Q * Q)))
    (k_value : Q) : t * list Q :=
  fold_left
    (fun acc buffer =>
       (fst (process (fst acc) buffer k_value),
        snd acc ++ snd (process (fst acc) buffer k_value)))
    buffers (st, []).

End Engine.

(** An engine whose sample buffers hold zeros only, as after the
    constructor or [reset]. *)
Definition quiet (st : t) : Prop :=
  all_zero (main_buffer_ st) /\ all_zero (sidechain_buffer_ st) /\
  all_zero (ola_buffer_ st).

(** The engine [st] with [phi] as its vector [phases_]. *)
Definition with_phases (st : t) (phi : list Q) : t :=
  {| sample_rate_ := sample_rate_ st;
     window_size_ := window_size_ st;
     hop_size_ := hop_size_ st;
     fft_size_ := fft_size_ st;
     num_bins_ := num_bins_ st;
     main_buffer_ := main_buffer_ st;
     sidechain_buffer_ := sidechain_buffer_ st;
     output_buffer_ := output_buffer_ st;
     buffer_write_pos_ := buffer_write_pos_ st;
     buffer_read_pos_ := buffer_read_pos_ st;
     samples_in_buffer_ := samples_in_buffer_ st;
     window_ := window_ st;
     phases_ := phi;
     ola_buffer_ := ola_buffer_ st;
     ola_write_pos_ := ola_write_pos_ st |}.

(** Following the words of the specification: [k] clamped to [0, 1]. *)
Definition clamp01 (k : Q) : Q :=
  if Qltb k 0 then 0 else if Qltb 1 k then 1 else k.

(** Following the words of the specification: the magnitudes of the
    silence short-circuit.  If both magnitude sums are below [eps] the
    spectrum is zero; if one is, it is the other spectrum scaled by [k]
    (source silent) or by [1 - k] (target silent); [None] when neither
    is. *)
Definition short_circuit_spec (mag_X mag_Y : list Q) (k : Q)
    : option (list Q) :=
  let silent_X := Qltb (Qsum mag_X) eps in
  let silent_Y := Qltb (Qsum mag_Y) eps in
  if (silent_X && silent_Y)%bool then Some (map (fun _ => 0) mag_X)
  else if silent_X then Some (map (fun y => k * y) mag_Y)
  else if silent_Y then Some (map (fun x => (1 - k) * x) mag_X)
  else None.

(** Following the words of the specification: the running phase of bin
    [i] advanced by [freq * window_size / 2], [freq] being the nominal
    frequency of the bin, [2 pi i / fft_size * sample_rate] as in
    [analyzeWindow], and [window_size] the window in seconds. *)
Definition phase_advance_spec (pi : Q) (st : t) (i : nat) : Q :=
  let freq := 2 * pi * inject_Z (Z.of_nat i)
              / inject_Z (Z.of_nat (fft_size_ st)) * sample_rate_ st in
  let window_size := inject_Z (Z.of_nat (window_size_ st)) / sample_rate_ st in
  vget (phases_ st) i + freq * window_size / 2.

End Cdf.

(** ** Spectral points and spectral masses *)

Module Spectral.

(** [spectral::point]. *)
Record point := {
  value : C;
  time : Q;
  freq : Q;
  time_reassigned : Q;
  freq_reassigned : Q
}.

(** A value-initialised point, as the elements of
    [std::vector<point> v(n)]. *)
Definition point0 : point :=
  {| value := Czero; time := 0; freq := 0;
     time_reassigned := 0; freq_reassigned := 0 |}.

Definition pget (v : list point) (i : nat) : point := nth i v point0.

Definition set_value (p : point) (z : C) : point :=
  {| value := z; time := time p; freq := freq p;
     time_reassigned := time_reassigned p;
     freq_reassigned := freq_reassigned p |}.

Definition set_freq (p : point) (f : Q) : point :=
  {| value := value p; time := time p; freq := f;
     time_reassigned := time_reassigned p;
     freq_reassigned := freq_reassigned p |}.

Definition set_freq_reassigned (p : point) (f : Q) : point :=
  {| value := value p; time := time p; freq := freq p;
     time_reassigned := time_reassigned p;
     freq_reassigned := f |}.

(** [spectral_mass]: the bins [left_bin <= i < right_bin], their centre
    and their share of the frame's magnitude. *)
Record spectral_mass := {
  left_bin : nat;
  right_bin : nat;
  center_bin : nat;
  mass : Q
}.

Definition mass0 : spectral_mass :=
  {| left_bin := 0; right_bin := 0; center_bin := 0; mass := 0 |}.

Definition mget (v : list spectral_mass) (i : nat) : spectral_mass :=
  nth i v mass0.

End Spectral.
Import Spectral.

(** ** [audio_transport.cpp]: grouping, matching, placing, interpolating *)

Module Transport.

(** *** [transport_matrix] *)

(** The [while (true)] loop.  Each iteration emits one triple and advances
    one of the two cursors; [None] is running out of [fuel]. *)
Fixpoint transport_loop (fuel : nat) (left right : list spectral_mass)
    (left_index right_index : nat) (left_mass right_mass : Q)
    : option (list (nat * nat * Q)) :=
  match fuel with
  | O => None
  | S fuel' =>
      if Qltb left_mass right_mass then
        let t := (left_index, right_index, left_mass) in
        let right_mass' := right_mass - left_mass in
        let left_index' := S left_index in
        if (length left <=? left_index')%nat then Some [t]
        else
          option_map (cons t)
            (transport_loop fuel' left right left_index' right_index
               (mass (mget left left_index')) right_mass')
      else
        let t := (left_index, right_index, right_mass) in
        let left_mass' := left_mass - right_mass in
        let right_index' := S right_index in
        if (length right <=? right_index')%nat then Some [t]
        else
          option_map (cons t)
            (transport_loop fuel' left right left_index right_index'
               left_mass' (mass (mget right right_index')))
  end.

(** [transport_matrix(left, right)].  The source reads [left[0]] and
    [right[0]] first, which is undefined on an empty vector: [None]. *)
Definition transport_matrix (left right : list spectral_mass)
    : option (list (nat * nat * Q)) :=
  match left, right with
  | l0 :: _, r0 :: _ =>
      transport_loop (length left + length right) left right 0 0
        (mass l0) (mass r0)
  | _, _ => None
  end.

(** The third components of a transport plan. *)
Definition transported (T : list (nat * nat * Q)) : list Q := map snd T.

(** The masses after position [i]. *)
Definition rest (l : list spectral_mass) (i : nat) : Q :=
  Qsum (map mass (drop (S i) l)).

(** The two-pointer greedy rule, as a relation between the cursors
    [i_L], [i_R], the remaining weights [m_L], [m_R] and the triples
    emitted from there on.  The side with the strictly smaller remaining
    weight is exhausted: its remaining weight (the minimum of the two) is
    emitted and subtracted from the other side's, and its cursor advances
    to the next mass; when the two are equal it is the right side that
    counts as exhausted.  The rule stops when the advancing cursor leaves
    its list. *)
Inductive greedy (left right : list spectral_mass)
    : nat -> nat -> Q -> Q -> list (nat * nat * Q) -> Prop :=
| greedy_left_last i_L i_R m_L m_R :
    m_L < m_R -> (length left <= S i_L)%nat ->
    greedy left right i_L i_R m_L m_R [(i_L, i_R, m_L)]
| greedy_left_next i_L i_R m_L m_R T :
    m_L < m_R -> (S i_L < length left)%nat ->
    greedy left right (S i_L) i_R (mass (mget left (S i_L))) (m_R - m_L) T ->
    greedy left right i_L i_R m_L m_R ((i_L, i_R, m_L) :: T)
| greedy_right_last i_L i_R m_L m_R :
    m_R <= m_L -> (length right <= S i_R)%nat ->
    greedy left right i_L i_R m_L m_R [(i_L, i_R, m_R)]
| greedy_right_next i_L i_R m_L m_R T :
    m_R <= m_L -> (S i_R < length right)%nat ->
    greedy left right i_L (S i_R) (m_L - m_R) (mass (mget right (S i_R))) T ->
    greedy left right i_L i_R m_L m_R ((i_L, i_R, m_R) :: T).

(** The masses [l] cover the bins from [start] to [stop] without gap or
    overlap: the first begins at [start], each begins where the previous
    one ends, none is empty, and the last ends at [stop]. *)
Fixpoint chain (start : nat) (l : list spectral_mass) (stop : nat) : Prop :=
  match l with
  | [] => start = stop
  | m :: l' =>
      left_bin m = start /\ (left_bin m < right_bin m)%nat /\
      chain (right_bin m) l' stop
  end.

Section WithKernel.
Context {K : Kernel}.

(** *** [group_spectrum] *)

(** Sum of [std::abs(spectrum[j].value)] for [lo <= j < hi]. *)
Definition abs_sum (spectrum : list point) (lo hi : nat) : Q :=
  for_range lo hi (fun j s => s + cabs (value (pget spectrum j))) 0.

(** The variables of the grouping loop.  The vector [masses] is kept as
    its finished prefix [done] and its last element [cur], the only one
    the loop writes to.  The fields that the source leaves uninitialised
    until it assigns them ([sign], and [right_bin] and [mass] of a new
    mass) start at [false] and 0. *)
Record group_state := {
  done : list spectral_mass;
  cur : spectral_mass;
  sign : bool;
  first : bool
}.

Definition group_step (spectrum : list point) (mass_sum : Q) (i : nat)
    (s : group_state) : group_state :=
  let current_sign :=
    Qgtb (freq_reassigned (pget spectrum i)) (freq (pget spectrum i)) in
  if first s then
    {| done := done s; cur := cur s; sign := current_sign; first := false |}
  else if Bool.eqb current_sign (sign s) then s
  else if sign s then
    (* falling: this is the centre bin *)
    let left_dist :=
      freq_reassigned (pget spectrum (i - 1)) - freq (pget spectrum (i - 1)) in
    let right_dist :=
      freq (pget spectrum i) - freq_reassigned (pget spectrum i) in
    let c := if Qltb left_dist right_dist then (i - 1)%nat else i in
    {| done := done s;
       cur := {| left_bin := left_bin (cur s); right_bin := right_bin (cur s);
                 center_bin := c; mass := mass (cur s) |};
       sign := current_sign; first := false |}
  else
    (* rising: this is the end of the mass *)
    let m := abs_sum spectrum (left_bin (cur s)) i in
    if Qgtb m 0 then
      {| done := done s ++
                 [{| left_bin := left_bin (cur s); right_bin := i;
                     center_bin := center_bin (cur s); mass := m / mass_sum |}];
         cur := {| left_bin := i; right_bin := 0; center_bin := i; mass := 0 |};
         sign := current_sign; first := false |}
    else
      {| done := done s;
         cur := {| left_bin := left_bin (cur s); right_bin := right_bin (cur s);
                   center_bin := center_bin (cur s); mass := m |};
         sign := current_sign; first := false |}.

Definition group_spectrum (spectrum : list point) : list spectral_mass :=
  let n := length spectrum in
  let mass_sum := abs_sum spectrum 0 n in
  if Qltb mass_sum eps then
    [{| left_bin := 0; right_bin := n; center_bin := (n / 2)%nat; mass := 1 |}]
  else
    let s :=
      for_loop n (group_step spectrum mass_sum)
        {| done := [];
           cur := {| left_bin := 0; right_bin := 0; center_bin := 0; mass := 0 |};
           sign := false; first := true |} in
    done s ++
    [{| left_bin := left_bin (cur s); right_bin := n;
        center_bin := center_bin (cur s);
        mass := abs_sum spectrum (left_bin (cur s)) n / mass_sum |}].

(** What the grouping loop maintains after [i] bins: the finished masses
    cover the bins up to where the open mass begins, the open mass begins
    before [i], and the finished masses weigh what their bins weigh. *)
Definition group_inv (spectrum : list point) (mass_sum : Q) (i : nat)
    (s : group_state) : Prop :=
  chain 0 (done s) (left_bin (cur s)) /\
  (left_bin (cur s) <= i)%nat /\
  ((0 < i)%nat -> (left_bin (cur s) < i)%nat /\ first s = false) /\
  Qsum (map mass (done s))
  == abs_sum spectrum 0 (left_bin (cur s)) / mass_sum.

(** *** [place_mass] *)

(** What [place_mass] writes to: the output spectrum, the next phases and
    the loudest amplitude seen in each bin. *)
Record place_state := {
  pl_output : list point;
  pl_phases : list Q;
  pl_amplitudes : list Q
}.

(** The body of the loop over the bins [i] of the mass. *)
Definition place_bin (m : spectral_mass) (center : Z)
    (scale interpolated_freq phase_shift next_phase : Q)
    (input : list point) (i : nat) (s : place_state) : place_state :=
  let new_i := (Z.of_nat i + center - Z.of_nat (center_bin m))%Z in
  if (new_i <? 0)%Z then s
  else if (new_i >=? Z.of_nat (length (pl_output s)))%Z then s
  else
    let n := Z.to_nat new_i in
    let phase := phase_shift + carg (value (pget input i)) in
    let mag := scale * cabs (value (pget input i)) in
    let o := pget (pl_output s) n in
    let output1 :=
      <[n := set_value o (Cadd (value o) (polar mag phase))]> (pl_output s) in
    if Qgtb mag (vget (pl_amplitudes s) n) then
      {| pl_output :=
           <[n := set_freq_reassigned (pget output1 n) interpolated_freq]> output1;
         pl_phases := <[n := next_phase]> (pl_phases s);
         pl_amplitudes := <[n := mag]> (pl_amplitudes s) |}
    else
      {| pl_output := output1; pl_phases := pl_phases s;
         pl_amplitudes := pl_amplitudes s |}.

(** [place_mass].  The tests on [std::isfinite] always pass here; the test
    [scale < 0] is kept.  Frequencies below 30 Hz are attenuated by the
    square of [abs_freq / 30]. *)
Definition place_mass (m : spectral_mass) (center : Z)
    (scale interpolated_freq center_phase : Q) (input : list point)
    (next_phase : Q) (s : place_state) : place_state :=
  if Qltb scale 0 then s
  else
    let abs_freq := Qabs interpolated_freq in
    let scale' :=
      if Qltb abs_freq 30
      then scale * ((abs_freq / 30) * (abs_freq / 30))
      else scale in
    let phase_shift :=
      center_phase - carg (value (pget input (center_bin m))) in
    for_range (left_bin m) (right_bin m)
      (place_bin m center scale' interpolated_freq phase_shift next_phase input)
      s.

(** The mass [m] restricted to the source bins [i] whose destination
    [i + center - center_bin m] is a bin of an output of [N] points. *)
Definition trim (m : spectral_mass) (center : Z) (N : nat) : spectral_mass :=
  {| left_bin :=
       Z.to_nat (Z.max (Z.of_nat (left_bin m))
                       (Z.of_nat (center_bin m) - center));
     right_bin :=
       Z.to_nat (Z.min (Z.of_nat (right_bin m))
                       (Z.of_nat N + Z.of_nat (center_bin m) - center));
     center_bin := center_bin m;
     mass := mass m |}.

(** *** [interpolate] *)

(** [std::round]: to the nearest integer, halves away from zero. *)
Definition Qround (x : Q) : Z :=
  if Qle_bool 0 x then Qfloor (x + (1 # 2)) else Qceiling (x - (1 # 2)).

(** The phase update of the two one-sided silent cases. *)
Definition silent_phases (side : list point) (phases : list Q)
    (window_size : Q) : list Q :=
  for_loop (Nat.min (length phases) (length side))
    (fun i ph =>
       if Qgtb (cabs (value (pget side i))) 0
       then <[i := carg (value (pget side i))
                   + freq_reassigned (pget side i) * window_size / 2]> ph
       else ph)
    phases.

(** The body of [for (auto t : T)]. *)
Definition interpolate_step (left right : list point)
    (left_masses right_masses : list spectral_mass) (phases : list Q)
    (window_size interpolation : Q) (s : place_state) (t : nat * nat * Q)
    : place_state :=
  let left_mass := mget left_masses (fst (fst t)) in
  let right_mass := mget right_masses (snd (fst t)) in
  let interpolated_bin :=
    Qround ((1 - interpolation) * inject_Z (Z.of_nat (center_bin left_mass))
            + interpolation * inject_Z (Z.of_nat (center_bin right_mass))) in
  let interpolation_rounded :=
    if (center_bin left_mass =? center_bin right_mass)%nat then interpolation
    else (inject_Z interpolated_bin - inject_Z (Z.of_nat (center_bin left_mass)))
         / (inject_Z (Z.of_nat (center_bin right_mass))
            - inject_Z (Z.of_nat (center_bin left_mass))) in
  let interpolated_freq :=
    (1 - interpolation_rounded)
      * freq_reassigned (pget left (center_bin left_mass))
    + interpolation_rounded
      * freq_reassigned (pget right (center_bin right_mass)) in
  let center_phase :=
    vget phases (Z.to_nat interpolated_bin)
    + (interpolated_freq * window_size / 2) / 2
    - M_PI * inject_Z interpolated_bin in
  let new_phase :=
    center_phase + (interpolated_freq * window_size / 2) / 2
    + M_PI * inject_Z interpolated_bin in
  let left_scale :=
    if Qgtb (mass left_mass) eps
    then (1 - interpolation) * snd t / mass left_mass
    else if Qgtb (mass left_mass) 0 then 1 - interpolation else 0 in
  let right_scale :=
    if Qgtb (mass right_mass) eps
    then interpolation * snd t / mass right_mass
    else if Qgtb (mass right_mass) 0 then interpolation else 0 in
  place_mass right_mass interpolated_bin right_scale interpolated_freq
    center_phase right new_phase
    (place_mass left_mass interpolated_bin left_scale interpolated_freq
       center_phase left new_phase s).

(** [interpolate(left, right, phases, window_size, interpolation)]: the
    interpolated spectrum, and [phases] as the call leaves it. *)
Definition interpolate (left right : list point) (phases : list Q)
    (window_size interpolation : Q) : list point * list Q :=
  let left_mass_sum := abs_sum left 0 (length left) in
  let right_mass_sum := abs_sum right 0 (length right) in
  let left_silent := Qltb left_mass_sum eps in
  let right_silent := Qltb right_mass_sum eps in
  if (left_silent && right_silent)%bool then
    (map (fun p => set_freq point0 (freq p)) left, phases)
  else if left_silent then
    (map (fun p => set_value p (Cscale (value p) interpolation)) right,
     silent_phases right phases window_size)
  else if right_silent then
    (map (fun p => set_value p (Cscale (value p) (1 - interpolation))) left,
     silent_phases left phases window_size)
  else
    let left_masses := group_spectrum left in
    let right_masses := group_spectrum right in
    let T := default [] (transport_matrix left_masses right_masses) in
    let s :=
      fold_left
        (interpolate_step left right left_masses right_masses phases
           window_size interpolation)
        T
        {| pl_output := map (fun p => set_freq point0 (freq p)) left;
           pl_phases := replicate (length phases) 0;
           pl_amplitudes := replicate (length phases) 0 |} in
    (pl_output s, pl_phases s).

End WithKernel.

End Transport.

(** ** The reassignment engine: [RealtimeReassignmentTransport] *)

Module Reassign.
Import Transport.

(** The members of the class ([window_], [window_t_], [window_d_] and the
    FFTW buffers are scratch space, written before they are read at every
    hop). *)
Record t := {
  sample_rate_ : Q;
  window_size_ : Q;
  window_samples_ : nat;
  window_padded_ : nat;
  hop_size_ : nat;
  hop_divisor_ : Z;
  fft_padding_ : Z;
  fft_size_ : nat;
  main_buffer_ : list Q;
  sidechain_buffer_ : list Q;
  input_write_pos_ : nat;
  output_buffer_ : list Q;
  output_read_pos_ : nat;
  phases_ : list Q;
  overlap_buffer_ : list Q
}.

(** [while (w % m != 0) w++], at most [fuel] increments. *)
Fixpoint round_up (fuel : nat) (w m : Z) : Z :=
  match fuel with
  | O => w
  | S fuel' => if (Z.rem w m =? 0)%Z then w else round_up fuel' (w + 1)%Z m
  end.

(** [memmove(v, v + hop, (size - hop) * sizeof)] followed by
    [std::fill(v.end() - hop, v.end(), 0)]. *)
Definition shift_left (hop : nat) (v : list Q) : list Q :=
  drop hop v ++ replicate hop 0.

(** [int getLatencySamples() const]:
    [(2 * hop_divisor_ - 1) * hop_size_]. *)
Definition getLatencySamples (st : t) : Z :=
  ((2 * hop_divisor_ st - 1) * Z.of_nat (hop_size_ st))%Z.

Definition reset (st : t) : t :=
  {| sample_rate_ := sample_rate_ st;
     window_size_ := window_size_ st;
     window_samples_ := window_samples_ st;
     window_padded_ := window_padded_ st;
     hop_size_ := hop_size_ st;
     hop_divisor_ := hop_divisor_ st;
     fft_padding_ := fft_padding_ st;
     fft_size_ := fft_size_ st;
     main_buffer_ := Cdf.fill0 (main_buffer_ st);
     sidechain_buffer_ := Cdf.fill0 (sidechain_buffer_ st);
     input_write_pos_ := 0;
     output_buffer_ := Cdf.fill0 (output_buffer_ st);
     output_read_pos_ := 0;
     phases_ := Cdf.fill0 (phases_ st);
     overlap_buffer_ := Cdf.fill0 (overlap_buffer_ st) |}.

(** The constructor. *)
Definition new (sample_rate window_ms : Q) (hop_divisor fft_padding : Z) : t :=
  let window_size := window_ms / 1000 in
  let window_samples :=
    round_up (Z.to_nat (Z.abs (2 * hop_divisor)))
      (Qround (window_size * sample_rate)) (2 * hop_divisor)%Z in
  let window_padded := (window_samples * (1 + fft_padding))%Z in
  let hop_size := (window_samples ÷ (2 * hop_divisor))%Z in
  let fft_size := (window_padded ÷ 2 + 1)%Z in
  let latency_samples := ((2 * hop_divisor - 1) * hop_size)%Z in
  let input_buffer_size := (window_samples + hop_size)%Z in
  {| sample_rate_ := sample_rate;
     window_size_ := window_size;
     window_samples_ := Z.to_nat window_samples;
     window_padded_ := Z.to_nat window_padded;
     hop_size_ := Z.to_nat hop_size;
     hop_divisor_ := hop_divisor;
     fft_padding_ := fft_padding;
     fft_size_ := Z.to_nat fft_size;
     main_buffer_ := replicate (Z.to_nat input_buffer_size) 0;
     sidechain_buffer_ := replicate (Z.to_nat input_buffer_size) 0;
     input_write_pos_ := 0;
     output_buffer_ := replicate (Z.to_nat (latency_samples + hop_size * 4)) 0;
     output_read_pos_ := 0;
     phases_ := replicate (Z.to_nat fft_size) 0;
     overlap_buffer_ := replicate (Z.to_nat (window_samples + hop_size)) 0 |}.

Section Engine.
Context {K : Kernel}.

(** One of the three windowed, zero-padded frames of [analyzeWindow]. *)
Definition windowed (st : t) (input : list Q) (w : Q -> Q) : list Q :=
  let padding_samples := ((window_padded_ st - window_samples_ st) / 2)%nat in
  for_loop (window_samples_ st)
    (fun i b =>
       let n := inject_Z (Z.of_nat i)
                - (inject_Z (Z.of_nat (window_samples_ st)) - 1) / 2 in
       <[(i + padding_samples)%nat := vget input i * w n]> b)
    (replicate (window_padded_ st) 0).

(** [analyzeWindow]: three transforms of the frame, then the points. *)
Definition analyzeWindow (st : t) (input : list Q) : list point :=
  let fft := fftw_r2c (window_padded_ st)
               (windowed st input (fun n => hann n (window_samples_ st))) in
  let fft_t := fftw_r2c (window_padded_ st)
                 (windowed st input
                    (fun n => hann_t n (window_samples_ st) (sample_rate_ st))) in
  let fft_d := fftw_r2c (window_padded_ st)
                 (windowed st input
                    (fun n => hann_d n (window_samples_ st) (sample_rate_ st))) in
  map (fun i =>
         let X := cget fft i in
         let X_t := cget fft_t i in
         let X_d := cget fft_d i in
         let f := (2 * M_PI * inject_Z (Z.of_nat i))
                  / inject_Z (Z.of_nat (window_padded_ st)) * sample_rate_ st in
         let mag := cabs X in
         {| value := X;
            time := 0;
            freq := f;
            time_reassigned :=
              if Qgtb mag eps then 0 + re (Cdiv X_t X) else 0;
            freq_reassigned :=
              if Qgtb mag eps then f + - im (Cdiv X_d X) / (2 * M_PI) else f |})
      (seq 0 (fft_size_ st)).

(** [synthesizeWindow]: the hop written to [output], and the overlap
    buffer after the shift. *)
Definition synthesizeWindow (st : t) (spectrum : list point)
    : list Q * list Q :=
  let window := fftw_c2r (window_padded_ st) (map value spectrum) in
  let padding_samples := ((window_padded_ st - window_samples_ st) / 2)%nat in
  let overlap :=
    for_loop (window_samples_ st)
      (fun i ov =>
         let v := vget window (i + padding_samples)
                  / (inject_Z (hop_divisor_ st)
                     * inject_Z (Z.of_nat (window_padded_ st))) in
         <[i := vget ov i + v]> ov)
      (overlap_buffer_ st) in
  (map (fun i => vget overlap i) (seq 0 (hop_size_ st)),
   shift_left (hop_size_ st) overlap).

(** [processHop]. *)
Definition processHop (k : Q) (st : t) : t :=
  let main_spectrum := analyzeWindow st (main_buffer_ st) in
  let sidechain_spectrum := analyzeWindow st (sidechain_buffer_ st) in
  let '(morphed_spectrum, phases') :=
    interpolate main_spectrum sidechain_spectrum (phases_ st)
      (window_size_ st) k in
  let '(hop_output, overlap') := synthesizeWindow st morphed_spectrum in
  let out :=
    for_loop (hop_size_ st)
      (fun i ob =>
         let write_idx :=
           (Z.to_nat (Z.of_nat (output_read_pos_ st) + getLatencySamples st
                      + Z.of_nat i) mod length (output_buffer_ st))%nat in
         <[write_idx := vget hop_output i]> ob)
      (output_buffer_ st) in
  {| sample_rate_ := sample_rate_ st;
     window_size_ := window_size_ st;
     window_samples_ := window_samples_ st;
     window_padded_ := window_padded_ st;
     hop_size_ := hop_size_ st;
     hop_divisor_ := hop_divisor_ st;
     fft_padding_ := fft_padding_ st;
     fft_size_ := fft_size_ st;
     main_buffer_ := main_buffer_ st;
     sidechain_buffer_ := sidechain_buffer_ st;
     input_write_pos_ := input_write_pos_ st;
     output_buffer_ := out;
     output_read_pos_ := output_read_pos_ st;
     phases_ := phases';
     overlap_buffer_ := overlap' |}.

(** The two engines agree on everything the constructor fixes. *)
Definition same_config (st st' : t) : Prop :=
  sample_rate_ st' = sample_rate_ st /\
  window_size_ st' = window_size_ st /\
  window_samples_ st' = window_samples_ st /\
  window_padded_ st' = window_padded_ st /\
  hop_size_ st' = hop_size_ st /\
  hop_divisor_ st' = hop_divisor_ st /\
  fft_padding_ st' = fft_padding_ st /\
  fft_size_ st' = fft_size_ st.

(** [memcpy(buf + at, src + from, c * sizeof(float))], [src] being one of
    the two input streams. *)
Definition copy_in (sel : Q * Q -> Q) (input : list (Q * Q))
    (from at_ c : nat) (buf : list Q) : list Q :=
  for_loop c
    (fun j b => <[(at_ + j)%nat := sel (nth (from + j)%nat input (0, 0))]> b)
    buf.

(** The body of [while (samples_processed < buffer_size)]: the engine and
    [samples_processed] after one iteration. *)
Definition process_chunk (k : Q) (input : list (Q * Q)) (st : t)
    (samples_processed : nat) : t * nat :=
  let samples_until_hop := (hop_size_ st - input_write_pos_ st)%nat in
  let samples_to_copy :=
    Nat.min samples_until_hop (length input - samples_processed) in
  let at_ := (window_samples_ st - hop_size_ st + input_write_pos_ st)%nat in
  let st1 :=
    {| sample_rate_ := sample_rate_ st;
       window_size_ := window_size_ st;
       window_samples_ := window_samples_ st;
       window_padded_ := window_padded_ st;
       hop_size_ := hop_size_ st;
       hop_divisor_ := hop_divisor_ st;
       fft_padding_ := fft_padding_ st;
       fft_size_ := fft_size_ st;
       main_buffer_ :=
         copy_in fst input samples_processed at_ samples_to_copy (main_buffer_ st);
       sidechain_buffer_ :=
         copy_in snd input samples_processed at_ samples_to_copy
           (sidechain_buffer_ st);
       input_write_pos_ := (input_write_pos_ st + samples_to_copy)%nat;
       output_buffer_ := output_buffer_ st;
       output_read_pos_ := output_read_pos_ st;
       phases_ := phases_ st;
       overlap_buffer_ := overlap_buffer_ st |} in
  let st2 :=
    if (hop_size_ st1 <=? input_write_pos_ st1)%nat then
      let h := processHop k st1 in
      {| sample_rate_ := sample_rate_ h;
         window_size_ := window_size_ h;
         window_samples_ := window_samples_ h;
         window_padded_ := window_padded_ h;
         hop_size_ := hop_size_ h;
         hop_divisor_ := hop_divisor_ h;
         fft_padding_ := fft_padding_ h;
         fft_size_ := fft_size_ h;
         main_buffer_ := shift_left (hop_size_ h) (main_buffer_ h);
         sidechain_buffer_ := shift_left (hop_size_ h) (sidechain_buffer_ h);
         input_write_pos_ := 0;
         output_buffer_ := output_buffer_ h;
         output_read_pos_ := output_read_pos_ h;
         phases_ := phases_ h;
         overlap_buffer_ := overlap_buffer_ h |}
    else st1 in
  (st2, (samples_processed + samples_to_copy)%nat).

(** The [while] loop; [None] is running out of [fuel]. *)
Fixpoint process_loop (fuel : nat) (k : Q) (input : list (Q * Q)) (st : t)
    (samples_processed : nat) : option t :=
  if (length input <=? samples_processed)%nat then Some st
  else
    match fuel with
    | O => None
    | S fuel' =>
        let '(st', p') := process_chunk k input st samples_processed in
        process_loop fuel' k input st' p'
    end.

(** One iteration of the final loop, which copies the output samples. *)
Definition pop_output (st : t) : t * Q :=
  ({| sample_rate_ := sample_rate_ st;
      window_size_ := window_size_ st;
      window_samples_ := window_samples_ st;
      window_padded_ := window_padded_ st;
      hop_size_ := hop_size_ st;
      hop_divisor_ := hop_divisor_ st;
      fft_padding_ := fft_padding_ st;
      fft_size_ := fft_size_ st;
      main_buffer_ := main_buffer_ st;
      sidechain_buffer_ := sidechain_buffer_ st;
      input_write_pos_ := input_write_pos_ st;
      output_buffer_ := <[output_read_pos_ st := 0]> (output_buffer_ st);
      output_read_pos_ :=
        ((output_read_pos_ st + 1) mod length (output_buffer_ st))%nat;
      phases_ := phases_ st;
      overlap_buffer_ := overlap_buffer_ st |},
   vget (output_buffer_ st) (output_read_pos_ st)).

Definition pop_outputs (n : nat) (st : t) : t * list Q :=
  for_loop n
    (fun _ '(st, out) => let '(st', y) := pop_output st in (st', out ++ [y]))
    (st, []).

(** [process(input_main, input_sidechain, output, buffer_size, k)], with
    the inputs as the list of the [buffer_size] pairs of samples.  The
    loop needs one iteration per copied chunk, and a chunk has at least
    one sample when [hop_size_ > 0]: [buffer_size] iterations suffice. *)
Definition process (st : t) (input : list (Q * Q)) (k : Q)
    : option (t * list Q) :=
  match process_loop (length input) k input st 0 with
  | Some st' => Some (pop_outputs (length input) st')
  | None => None
  end.

(** Consecutive calls of [process], one per buffer, with the same [k]. *)
Definition process_calls (st : t) (buffers : list (list (Q * Q))) (k : Q)
    : option (t * list Q) :=
  fold_left
    (fun acc buffer =>
       match acc with
       | Some (st, out) =>
           match process st buffer k with
           | Some (st', o) => Some (st', out ++ o)
           | None => None
           end
       | None => None
       end)
    buffers (Some (st, [])).

End Engine.

(** The samples a call has written to [output], if it returned. *)
Definition outputs (r : option (t * list Q)) : list Q :=
  match r with
  | Some (_, out) => out
  | None => []
  end.

(** An engine whose sample buffers hold zeros only, as after the
    constructor or [reset]. *)
Definition quiet (st : t) : Prop :=
  all_zero (main_buffer_ st) /\ all_zero (sidechain_buffer_ st) /\
  all_zero (output_buffer_ st) /\ all_zero (overlap_buffer_ st).

(** The state the input loop keeps: a positive hop, and fewer samples
    waiting than a hop. *)
Definition ready (st : t) : Prop :=
  (0 < hop_size_ st)%nat /\ (input_write_pos_ st < hop_size_ st)%nat.

End Reassign.

(** ** A reference kernel

    An executable kernel for closed examples.  [M_PI] is the value of the
    C constant as a double.  Like their floating-point originals, the
    functions return their results rounded to a fixed precision (here
    downwards, to a multiple of 2^-40).  Sine and cosine are exact at the
    quarter turns and Taylor polynomials elsewhere; the transforms are the
    discrete Fourier sums written with them; modulus and argument are
    exact on the two axes and rational approximations elsewhere. *)

Module RefKernel.

Definition pi : Q := 884279719003555 # 281474976710656.

(** Rounding to a multiple of 2^-40. *)
Definition rnd (x : Q) : Q :=
  inject_Z (Qfloor (x * inject_Z (2 ^ 40))) / inject_Z (2 ^ 40).

Definition pow (x : Q) (n : positive) : Q := Qpower_positive x n.

Definition cosq (x : Q) : Q :=
  if Qeq_bool x 0 then 1
  else if Qeq_bool (Qabs x) (pi / 2) then 0
  else if Qeq_bool (Qabs x) pi then -1
  else if Qeq_bool (Qabs x) (3 * pi / 2) then 0
  else if Qeq_bool (Qabs x) (2 * pi) then 1
  else
    let y := rnd x in
    rnd (1 - pow y 2 / 2 + pow y 4 / 24 - pow y 6 / 720 + pow y 8 / 40320).

Definition sinq (x : Q) : Q :=
  if Qeq_bool x 0 then 0
  else if Qeq_bool x (pi / 2) then 1
  else if Qeq_bool x pi then 0
  else if Qeq_bool x (3 * pi / 2) then -1
  else if Qeq_bool x (2 * pi) then 0
  else
    let y := rnd x in
    rnd (y - pow y 3 / 6 + pow y 5 / 120 - pow y 7 / 5040).

(** Square root: exact at 0, else six Newton steps from [(1 + x) / 2]. *)
Definition sqrtq (x : Q) : Q :=
  if Qeq_bool x 0 then 0
  else
    let x' := rnd x in
    let step y := rnd ((y + x' / y) / 2) in
    step (step (step (step (step (step (rnd ((1 + x') / 2))))))).

Definition cabsq (z : C) : Q :=
  if Qeq_bool (im z) 0 then Qabs (re z)
  else if Qeq_bool (re z) 0 then Qabs (im z)
  else sqrtq (re z * re z + im z * im z).

(** Arc tangent on [-1, 1], to about 0.005. *)
Definition atanq (y : Q) : Q := rnd (y / (1 + (28 # 100) * y * y)).

Definition cargq (z : C) : Q :=
  let a := re z in
  let b := im z in
  if Qeq_bool b 0 then (if Qle_bool 0 a then 0 else pi)
  else if Qeq_bool a 0 then (if Qle_bool 0 b then pi / 2 else - (pi / 2))
  else if Qle_bool (Qabs b) (Qabs a) then
    (if Qle_bool 0 a then atanq (b / a)
     else if Qle_bool 0 b then atanq (b / a) + pi else atanq (b / a) - pi)
  else
    (if Qle_bool 0 b then pi / 2 - atanq (a / b)
     else - (pi / 2) - atanq (a / b)).

Definition polarq (m phi : Q) : C := (rnd (m * cosq phi), rnd (m * sinq phi)).

(** The angle [2 pi (j k mod n) / n]. *)
Definition angle (n j k : nat) : Q :=
  2 * pi * inject_Z (Z.of_nat ((j * k) mod n)) / inject_Z (Z.of_nat n).

(** [X[k] = sum over j < n of x[j] exp(-2 pi i j k / n)], [k <= n/2]. *)
Definition r2c (n : nat) (x : list Q) : list C :=
  map (fun k =>
         let X :=
           for_loop n
             (fun j s =>
                Cadd s (vget x j * cosq (angle n j k),
                        - (vget x j * sinq (angle n j k))))
             Czero in
         (rnd (re X), rnd (im X)))
      (seq 0 (n / 2 + 1)).

(** [x[j] = sum over k < n of X[k] exp(2 pi i j k / n)], the bins above
    [n/2] being the conjugates of those below. *)
Definition c2r (n : nat) (X : list C) : list Q :=
  map (fun j =>
         rnd (for_loop n
                (fun k s =>
                   let z := if (k <=? n / 2)%nat then cget X k
                            else (re (cget X (n - k)), - im (cget X (n - k))) in
                   s + (re z * cosq (angle n j k) - im z * sinq (angle n j k)))
                0))
      (seq 0 n).

Definition hannq (n : Q) (N : nat) : Q :=
  (1 # 2) * (1 + cosq (2 * pi * n / (inject_Z (Z.of_nat N) - 1))).

Definition hann_tq (n : Q) (N : nat) (sample_rate : Q) : Q :=
  rnd (n / sample_rate * hannq n N).

Definition hann_dq (n : Q) (N : nat) (sample_rate : Q) : Q :=
  rnd (- (pi / (inject_Z (Z.of_nat N) - 1))
       * sinq (2 * pi * n / (inject_Z (Z.of_nat N) - 1)) * sample_rate).

Definition kernel : Kernel := {|
  M_PI := pi;
  cos := cosq;
  cabs := cabsq;
  carg := cargq;
  polar := polarq;
  fftw_r2c := r2c;
  fftw_c2r := c2r;
  hann := hannq;
  hann_t := hann_tq;
  hann_d := hann_dq
|}.

End RefKernel.

(** * Properties *)

(** ** Basic facts: comparisons, loops, indexed updates, sums *)

Section Basics.

Lemma Qltb_lt (x y : Q) : Qltb x y = true <-> x < y.
Proof.
  unfold Qltb. rewrite Bool.negb_true_iff.
  destruct (Qle_bool y x) eqn:E.
  - apply Qle_bool_iff in E. split; [discriminate | intros; lra].
  - split; [intros _ | reflexivity].
    destruct (Qlt_le_dec x y) as [H | H]; [exact H |].
    apply Qle_bool_iff in H. congruence.
Qed.

Lemma Qltb_ge (x y : Q) : Qltb x y = false <-> y <= x.
Proof.
  unfold Qltb. rewrite Bool.negb_false_iff. apply Qle_bool_iff.
Qed.

Lemma Qgeb_ge (x y : Q) : Qgeb x y = true <-> y <= x.
Proof. unfold Qgeb. apply Qle_bool_iff. Qed.

Lemma Qgeb_lt (x y : Q) : Qgeb x y = false <-> x < y.
Proof.
  unfold Qgeb. destruct (Qle_bool y x) eqn:E.
  - apply Qle_bool_iff in E. split; [discriminate | intros; lra].
  - split; [intros _ | reflexivity].
    destruct (Qlt_le_dec x y) as [H | H]; [exact H |].
    apply Qle_bool_iff in H. congruence.
Qed.

Lemma Qgtb_gt (x y : Q) : Qgtb x y = true <-> y < x.
Proof. unfold Qgtb. apply Qltb_lt. Qed.

Lemma Qgtb_le (x y : Q) : Qgtb x y = false <-> x <= y.
Proof. unfold Qgtb. apply Qltb_ge. Qed.

Lemma eps_pos : 0 < eps.
Proof. reflexivity. Qed.

(** Two numbers that the boolean test tells apart are different. *)
Lemma Qneq_by_bool (x y : Q) : Qeq_bool x y = false -> ~ x == y.
Proof. intros H E. apply Qeq_bool_iff in E. congruence. Qed.

Lemma std_max_ge_r (a b : Q) : b <= std_max a b.
Proof.
  unfold std_max. destruct (Qltb a b) eqn:E; [lra |].
  apply Qltb_ge in E. exact E.
Qed.

Lemma std_max_l (a b : Q) : b <= a -> std_max a b = a.
Proof.
  intros H. unfold std_max. apply Qltb_ge in H. rewrite H. reflexivity.
Qed.

Lemma for_loop_0 {S : Type} (body : nat -> S -> S) (s : S) :
  for_loop 0 body s = s.
Proof. reflexivity. Qed.

Lemma for_loop_S {S : Type} (n : nat) (body : nat -> S -> S) (s : S) :
  for_loop (Datatypes.S n) body s = body n (for_loop n body s).
Proof.
  unfold for_loop. rewrite seq_S, fold_left_app. reflexivity.
Qed.

(** A loop invariant that holds initially and is preserved by every
    iteration holds at the end. *)
Lemma for_loop_inv {S : Type} (I : nat -> S -> Prop) (n : nat)
    (body : nat -> S -> S) (s : S) :
  I 0%nat s ->
  (forall i x, (i < n)%nat -> I i x -> I (Datatypes.S i) (body i x)) ->
  I n (for_loop n body s).
Proof.
  intros H0 Hstep.
  assert (forall m, (m <= n)%nat -> I m (for_loop m body s)) as G.
  { induction m as [| m IH]; intros Hm; [exact H0 |].
    rewrite for_loop_S. apply Hstep; [lia | apply IH; lia]. }
  apply G. lia.
Qed.

Lemma for_range_nil {S : Type} (lo hi : nat) (body : nat -> S -> S) (s : S) :
  (hi <= lo)%nat -> for_range lo hi body s = s.
Proof.
  intros H. unfold for_range. replace (hi - lo)%nat with 0%nat by lia.
  reflexivity.
Qed.

Lemma for_range_S {S : Type} (lo hi : nat) (body : nat -> S -> S) (s : S) :
  (lo <= hi)%nat ->
  for_range lo (Datatypes.S hi) body s = body hi (for_range lo hi body s).
Proof.
  intros H. unfold for_range.
  replace (Datatypes.S hi - lo)%nat with (Datatypes.S (hi - lo)) by lia.
  rewrite seq_S, fold_left_app. simpl.
  replace (lo + (hi - lo))%nat with hi by lia. reflexivity.
Qed.

Lemma for_range_inv {S : Type} (I : nat -> S -> Prop) (lo hi : nat)
    (body : nat -> S -> S) (s : S) :
  (lo <= hi)%nat ->
  I lo s ->
  (forall i x, (lo <= i < hi)%nat -> I i x -> I (Datatypes.S i) (body i x)) ->
  I hi (for_range lo hi body s).
Proof.
  intros Hle H0 Hstep.
  assert (forall m, (lo <= m <= hi)%nat -> I m (for_range lo m body s)) as G.
  { induction m as [| m IH]; intros Hm.
    - assert (lo = 0)%nat as -> by lia. exact H0.
    - destruct (Nat.eq_dec lo (Datatypes.S m)) as [-> | Hne].
      + rewrite for_range_nil by lia. exact H0.
      + rewrite for_range_S by lia. apply Hstep; [lia | apply IH; lia]. }
  apply G. lia.
Qed.

Lemma nth_insert_eq {A : Type} (l : list A) (i : nat) (x d : A) :
  (i < length l)%nat -> nth i (<[i := x]> l) d = x.
Proof.
  intros H. rewrite nth_lookup, list_lookup_insert_eq by exact H. reflexivity.
Qed.

Lemma nth_insert_ne {A : Type} (l : list A) (i j : nat) (x d : A) :
  i <> j -> nth j (<[i := x]> l) d = nth j l d.
Proof.
  intros H. rewrite !nth_lookup, list_lookup_insert_ne by exact H. reflexivity.
Qed.

Lemma nth_replicate {A : Type} (n i : nat) (x : A) :
  nth i (replicate n x) x = x.
Proof.
  rewrite nth_lookup. destruct (replicate n x !! i) eqn:E; [| reflexivity].
  apply lookup_replicate in E. simpl. tauto.
Qed.

End Basics.

(** ** The CDF transport map *)

Module CdfMapFacts.
Import CdfMap.

(** The sum of the first [n] magnitudes. *)
Lemma total_S (n : nat) (mag : list Q) :
  total (S n) mag = total n mag + vget mag n.
Proof. unfold total. rewrite for_loop_S. reflexivity. Qed.

Lemma Qsum_snoc (l : list Q) (x : Q) : Qsum (l ++ [x]) = Qsum l + x.
Proof. unfold Qsum. rewrite fold_left_app. reflexivity. Qed.

Lemma total_take (n : nat) (mag : list Q) :
  (n <= length mag)%nat -> Qsum (take n mag) = total n mag.
Proof.
  induction n as [| n IH]; intros Hn; [reflexivity |].
  destruct (lookup_lt_is_Some_2 mag n) as [x Hx]; [lia |].
  rewrite (take_S_r _ _ _ Hx), Qsum_snoc, total_S, IH by lia.
  unfold vget. rewrite nth_lookup, Hx. reflexivity.
Qed.

Lemma total_all (mag : list Q) : Qsum mag = total (length mag) mag.
Proof. rewrite <- total_take by lia. rewrite firstn_all. reflexivity. Qed.

Lemma vget_nonneg (mag : list Q) (n : nat) :
  Forall (Qle 0) mag -> 0 <= vget mag n.
Proof.
  intros H. unfold vget.
  destruct (Nat.lt_ge_cases n (length mag)) as [Hn | Hn].
  - apply (proj1 (List.Forall_nth _ _) H). exact Hn.
  - rewrite nth_overflow by lia. lra.
Qed.

Lemma total_nonneg (n : nat) (mag : list Q) :
  Forall (Qle 0) mag -> 0 <= total n mag.
Proof.
  intros H. induction n as [| n IH]; [unfold total; rewrite for_loop_0; lra |].
  rewrite total_S.
  pose proof (vget_nonneg mag n H). lra.
Qed.

Lemma total_mono (n m : nat) (mag : list Q) :
  Forall (Qle 0) mag -> (n <= m)%nat -> total n mag <= total m mag.
Proof.
  intros H Hnm. induction Hnm as [| m Hnm IH]; [lra |].
  rewrite total_S.
  pose proof (vget_nonneg mag m H). lra.
Qed.

(** The running normalised sum written to [cdf[i]] is, up to the order of
    the additions and divisions, the partial sum divided by the total. *)
Lemma cdf_spec (n : nat) (mag : list Q) (s : Q) :
  length (cdf n mag s) = n /\
  forall i, (i < n)%nat -> vget (cdf n mag s) i == total (S i) mag / s.
Proof.
  unfold cdf.
  pose (I := fun (m : nat) (st : Q * list Q) =>
    fst st == total m mag / s /\ length (snd st) = n /\
    forall i, (i < m)%nat -> vget (snd st) i == total (S i) mag / s).
  assert (I n (for_loop n
    (fun i '(cumsum, out) =>
       let cumsum' := cumsum + vget mag i / s in
       (cumsum', <[i := cumsum']> out)) (0, replicate n 0))) as HI.
  { apply for_loop_inv.
    - unfold I. simpl. split; [| split].
      + unfold total. rewrite for_loop_0. unfold Qdiv. ring.
      + apply length_replicate.
      + intros i Hi. lia.
    - intros i [c out] Hi (Hc & Hlen & Hout). unfold I in *. simpl in *.
      assert (c + vget mag i / s == total (S i) mag / s) as E.
      { rewrite total_S, Hc. unfold Qdiv. ring. }
      split; [exact E | split].
      + rewrite length_insert. exact Hlen.
      + intros j Hj. unfold vget.
        destruct (Nat.eq_dec i j) as [<- | Hne].
        * rewrite nth_insert_eq by lia. exact E.
        * rewrite nth_insert_ne by exact Hne. apply Hout. lia. }
  destruct HI as (_ & Hlen & Hout). split; assumption.
Qed.

Lemma cdf_F_spec (mag : list Q) (i : nat) :
  (i < length mag)%nat ->
  vget (cdf (length mag) mag (std_max (total (length mag) mag) eps)) i
  == F_spec mag i.
Proof.
  intros Hi. destruct (cdf_spec (length mag) mag
                         (std_max (total (length mag) mag) eps)) as [_ H].
  rewrite (H i Hi). unfold F_spec.
  rewrite total_take by lia. rewrite total_all. reflexivity.
Qed.

Lemma F_spec_mono (mag : list Q) (i j : nat) :
  Forall (Qle 0) mag -> (i <= j < length mag)%nat ->
  F_spec mag i <= F_spec mag j.
Proof.
  intros Hpos Hij. unfold F_spec.
  rewrite !total_take by lia.
  pose proof (total_mono (S i) (S j) mag Hpos ltac:(lia)) as Hm.
  pose proof (std_max_ge_r (Qsum mag) eps) as Hs.
  pose proof eps_pos as He.
  apply Qmult_le_compat_r; [exact Hm |].
  apply Qlt_le_weak, Qinv_lt_0_compat. lra.
Qed.

(** The binary search, for a target that the indices at and above some
    point reach and those below do not ([P] is upward closed): it returns
    the least index that reaches the target, or [n - 1] when none does. *)
Lemma bsearch_spec (n : Z) (cdf_Y : list Q) (target : Q) :
  (forall a b : Z, (0 <= a <= b)%Z -> (b < n)%Z ->
     target <= vget cdf_Y (Z.to_nat a) -> target <= vget cdf_Y (Z.to_nat b)) ->
  forall (fuel : nat) (left right result : Z),
    (0 <= left)%Z -> (left <= right + 1)%Z -> (right < n)%Z ->
    (right - left + 1 < Z.of_nat fuel)%Z ->
    (forall j, (0 <= j < left)%Z -> vget cdf_Y (Z.to_nat j) < target) ->
    (forall j, (right < j < n)%Z -> target <= vget cdf_Y (Z.to_nat j)) ->
    result = Z.min (right + 1) (n - 1) ->
    let r := bsearch fuel cdf_Y target left right result in
    (exists c, (0 <= c <= n)%Z /\ r = Z.min c (n - 1) /\
       (forall j, (0 <= j < c)%Z -> vget cdf_Y (Z.to_nat j) < target) /\
       (forall j, (c <= j < n)%Z -> target <= vget cdf_Y (Z.to_nat j))).
Proof.
  intros Hup. induction fuel as [| fuel IH]; intros left right result
    Hl Hlr Hr Hfuel Hlow Hhigh Hres; [lia |].
  simpl. destruct (left <=? right)%Z eqn:E.
  - apply Z.leb_le in E.
    assert (left <= (left + right) ÷ 2 <= right)%Z as Hmid.
    { rewrite Z.quot_div_nonneg by lia. 
      split; [apply Z.div_le_lower_bound | apply Z.div_le_upper_bound]; lia. }
    set (mid := ((left + right) ÷ 2)%Z) in *.
    destruct (Qgeb (vget cdf_Y (Z.to_nat mid)) target) eqn:P.
    + apply Qgeb_ge in P.
      apply IH; [lia | lia | lia | lia | exact Hlow | | lia].
      intros j Hj. apply (Hup mid j); [lia | lia | exact P].
    + apply Qgeb_lt in P.
      apply IH; [lia | lia | lia | lia | | exact Hhigh | exact Hres].
      intros j Hj.
      destruct (Qlt_le_dec (vget cdf_Y (Z.to_nat j)) target) as [H | H];
        [exact H |].
      pose proof (Hup j mid ltac:(lia) ltac:(lia) H). lra.
  - apply Z.leb_gt in E. exists (right + 1)%Z.
    split; [lia | split; [exact Hres | split]].
    + intros j Hj. apply Hlow. lia.
    + intros j Hj. apply Hhigh. lia.
Qed.

Lemma for_loop_tabulate {A : Type} (n : nat) (f : nat -> A) (init : list A) :
  length init = n ->
  for_loop n (fun i t => <[i := f i]> t) init = map f (seq 0 n).
Proof.
  intros Hlen.
  assert (for_loop n (fun i t => <[i := f i]> t) init
          = map f (seq 0 n) ++ drop n init) as E.
  { apply (for_loop_inv (fun m t => t = map f (seq 0 m) ++ drop m init)).
    - simpl. rewrite drop_0. reflexivity.
    - intros i t Hi ->.
      destruct (lookup_lt_is_Some_2 init i) as [x Hx]; [lia |].
      rewrite (drop_S _ _ _ Hx), seq_S, map_app. simpl.
      rewrite <- app_assoc. simpl.
      replace i with (length (map f (seq 0 i)) + 0)%nat at 1
        by (rewrite length_map, length_seq; lia).
      rewrite insert_app_r. reflexivity. }
  rewrite E, drop_ge by lia. apply app_nil_r.
Qed.

Lemma computeTransportMap_eq (N : nat) (mag_X mag_Y : list Q) :
  computeTransportMap N mag_X mag_Y =
  map (fun i =>
         bsearch (S (S N))
           (cdf N mag_Y (std_max (total N mag_Y) eps))
           (vget (cdf N mag_X (std_max (total N mag_X) eps)) i - eps)
           0 (Z.of_nat N - 1) (Z.of_nat N - 1))
      (seq 0 N).
Proof.
  unfold computeTransportMap. apply for_loop_tabulate, length_replicate.
Qed.

Lemma nth_map_seq {A : Type} (f : nat -> A) (n i : nat) (d : A) :
  (i < n)%nat -> nth i (map f (seq 0 n)) d = f i.
Proof.
  intros Hi. rewrite nth_lookup, list_lookup_fmap, lookup_seq_lt by exact Hi.
  reflexivity.
Qed.

Lemma F_spec_le_1 (mag : list Q) (i : nat) :
  Forall (Qle 0) mag -> (i < length mag)%nat -> F_spec mag i <= 1.
Proof.
  intros Hpos Hi. unfold F_spec. rewrite total_take by lia.
  pose proof (total_mono (S i) (length mag) mag Hpos ltac:(lia)) as Hm.
  rewrite <- total_all in Hm.
  pose proof (std_max_ge_r (Qsum mag) eps) as Hs.
  pose proof eps_pos as He.
  assert (Qsum mag <= std_max (Qsum mag) eps) as Hs'.
  { unfold std_max. destruct (Qltb (Qsum mag) eps) eqn:E; [| lra].
    apply Qltb_lt in E. lra. }
  apply Qle_shift_div_r; lra.
Qed.

Lemma F_spec_last (mag : list Q) :
  mag <> [] -> eps <= Qsum mag -> F_spec mag (length mag - 1) == 1.
Proof.
  intros Hne Hs. unfold F_spec.
  assert (length mag <> 0)%nat by (destruct mag; [congruence | simpl; lia]).
  replace (S (length mag - 1)) with (length mag) by lia.
  rewrite firstn_all, std_max_l by exact Hs.
  pose proof eps_pos. field. lra.
Qed.

(** C6, as amended.  For magnitude spectra of [N] bins (the target's being
    non-negative), [computeTransportMap] returns [N] indices, each in
    [0, N); [T[i]] is the least index [j] with
    [F_Y[j] >= F_X[i] - eps] whenever some index satisfies this, which is
    so whenever the source is non-negative and the target's total mass is
    at least [eps]; and [T[i] = N - 1] when no index does. *)
Theorem C6_transport_map (N : nat) (mag_X mag_Y : list Q) :
  length mag_X = N -> length mag_Y = N -> Forall (Qle 0) mag_Y ->
  let T := computeTransportMap N mag_X mag_Y in
  length T = N /\
  forall i, (i < N)%nat ->
    (0 <= vgetZ T i < Z.of_nat N)%Z /\
    (forall j, (j < N)%nat -> F_spec mag_X i - eps <= F_spec mag_Y j ->
       (Z.to_nat (vgetZ T i) <= j)%nat /\
       F_spec mag_X i - eps <= F_spec mag_Y (Z.to_nat (vgetZ T i))) /\
    ((forall j, (j < N)%nat -> F_spec mag_Y j < F_spec mag_X i - eps) ->
       vgetZ T i = (Z.of_nat N - 1)%Z) /\
    (Forall (Qle 0) mag_X -> eps <= Qsum mag_Y ->
       exists j, (j < N)%nat /\ F_spec mag_X i - eps <= F_spec mag_Y j).
Proof.
  intros HX HY Hpos T. subst T. rewrite computeTransportMap_eq.
  split; [rewrite length_map, length_seq; reflexivity |].
  intros i Hi. unfold vgetZ. rewrite nth_map_seq by exact Hi.
  set (cY := cdf N mag_Y (std_max (total N mag_Y) eps)).
  set (target := vget (cdf N mag_X (std_max (total N mag_X) eps)) i - eps).
  assert (forall j, (j < N)%nat -> vget cY j == F_spec mag_Y j) as HcY.
  { intros j Hj. subst cY. rewrite <- HY. apply cdf_F_spec. lia. }
  assert (target == F_spec mag_X i - eps) as Ht.
  { subst target. rewrite <- HX. rewrite cdf_F_spec by lia. reflexivity. }
  destruct (bsearch_spec (Z.of_nat N) cY target) with
    (fuel := S (S N)) (left := 0%Z) (right := (Z.of_nat N - 1)%Z)
    (result := (Z.of_nat N - 1)%Z)
    as (c & Hc & Hr & Hlow & Hhigh); try lia.
  { intros a b Hab Hb Ha.
    rewrite HcY in Ha |- * by lia.
    pose proof (F_spec_mono mag_Y (Z.to_nat a) (Z.to_nat b) Hpos ltac:(lia)).
    lra. }
  set (r := bsearch (S (S N)) cY target 0 (Z.of_nat N - 1) (Z.of_nat N - 1))
    in *.
  split; [lia | split; [| split]].
  - intros j Hj Hreach.
    assert (c <= Z.of_nat j)%Z as Hcj.
    { destruct (Z.le_gt_cases c (Z.of_nat j)) as [H | H]; [exact H |].
      pose proof (Hlow (Z.of_nat j) ltac:(lia)) as Hl.
      rewrite Nat2Z.id, HcY in Hl by lia. lra. }
    split; [lia |].
    pose proof (Hhigh r ltac:(lia)) as Hh.
    rewrite HcY in Hh by lia. lra.
  - intros Hnone.
    destruct (Z.eq_dec c (Z.of_nat N)) as [-> | Hne]; [lia |].
    pose proof (Hhigh c ltac:(lia)) as Hh.
    pose proof (Hnone (Z.to_nat c) ltac:(lia)) as Hn.
    rewrite HcY in Hh by lia. lra.
  - intros HposX Hsum. exists (N - 1)%nat. split; [lia |].
    pose proof (F_spec_le_1 mag_X i HposX ltac:(lia)) as H1.
    assert (mag_Y <> []) as Hne by (destruct mag_Y; [simpl in HY; lia | congruence]).
    pose proof (F_spec_last mag_Y Hne Hsum) as H2.
    rewrite HY in H2. pose proof eps_pos. lra.
Qed.

(** A source of three bins against a non-silent target of three. *)
Lemma C6_transport_map_witness :
  let T := computeTransportMap 3 [1; 2; 3] [3; 2; 1] in
  length T = 3%nat /\
  forall i, (i < 3)%nat ->
    (0 <= vgetZ T i < 3)%Z /\
    (forall j, (j < 3)%nat ->
       F_spec [1; 2; 3] i - eps <= F_spec [3; 2; 1] j ->
       (Z.to_nat (vgetZ T i) <= j)%nat /\
       F_spec [1; 2; 3] i - eps <= F_spec [3; 2; 1] (Z.to_nat (vgetZ T i))) /\
    ((forall j, (j < 3)%nat -> F_spec [3; 2; 1] j < F_spec [1; 2; 3] i - eps) ->
       vgetZ T i = 2%Z) /\
    (Forall (Qle 0) [1; 2; 3] -> eps <= Qsum [3; 2; 1] ->
       exists j, (j < 3)%nat /\ F_spec [1; 2; 3] i - eps <= F_spec [3; 2; 1] j).
Proof.
  apply (C6_transport_map 3 [1; 2; 3] [3; 2; 1]);
    [reflexivity | reflexivity |].
  repeat constructor; discriminate.
Defined.

(** C6 as stated fails when the target is silent and the source is not:
    the map is [[2; 2; 2]], yet [F_Y[2] = 0] is below [F_X[i] - eps] for
    every [i], so no index, and not [T[i]], satisfies the inequality. *)
Lemma C6_counterexample :
  computeTransportMap 3 [1; 2; 3] [0; 0; 0] = [2; 2; 2]%Z /\
  forall i, (i < 3)%nat ->
    ~ (F_spec [1; 2; 3] i - eps
       <= F_spec [0; 0; 0]
            (Z.to_nat (vgetZ (computeTransportMap 3 [1; 2; 3] [0; 0; 0]) i))).
Proof.
  split; [vm_compute; reflexivity |].
  intros i Hi H.
  destruct i as [| [| [| i]]]; [| | | lia]; vm_compute in H; apply H; reflexivity.
Qed.

End CdfMapFacts.

(** ** The greedy mass matcher *)

Module MatcherFacts.
Import Transport.

Lemma Qsum_from (l : list Q) (a : Q) : fold_left Qplus l a == a + Qsum l.
Proof.
  unfold Qsum. revert a. induction l as [| x l IH]; intros a; simpl.
  - ring.
  - rewrite (IH (a + x)), (IH (0 + x)). ring.
Qed.

Lemma Qsum_cons (x : Q) (l : list Q) : Qsum (x :: l) == x + Qsum l.
Proof. unfold Qsum at 1. simpl. rewrite Qsum_from. ring. Qed.

Lemma rest_last (l : list spectral_mass) (i : nat) :
  (length l <= S i)%nat -> rest l i == 0.
Proof. intros H. unfold rest. rewrite drop_ge by lia. reflexivity. Qed.

Lemma rest_next (l : list spectral_mass) (i : nat) :
  (S i < length l)%nat -> rest l i == mass (mget l (S i)) + rest l (S i).
Proof.
  intros H. unfold rest.
  destruct (lookup_lt_is_Some_2 l (S i)) as [x Hx]; [lia |].
  rewrite (drop_S _ _ _ Hx). simpl map. rewrite Qsum_cons.
  unfold mget. rewrite nth_lookup, Hx. reflexivity.
Qed.

Lemma mget_nonneg (l : list spectral_mass) (i : nat) :
  Forall (fun m => 0 <= mass m) l -> 0 <= mass (mget l i).
Proof.
  intros H. unfold mget.
  destruct (Nat.lt_ge_cases i (length l)) as [Hi | Hi].
  - apply (proj1 (List.Forall_nth _ _) H). exact Hi.
  - rewrite nth_overflow by lia. simpl. lra.
Qed.

(** The loop from any reachable state: it ends within the fuel left, it
    follows the greedy rule, its triples are in range and non-negative,
    and when the two sides have the same mass left it transports all of
    it. *)
Lemma transport_loop_spec (left right : list spectral_mass) :
  Forall (fun m => 0 <= mass m) left ->
  Forall (fun m => 0 <= mass m) right ->
  forall (fuel i_L i_R : nat) (m_L m_R : Q),
    (i_L < length left)%nat -> (i_R < length right)%nat ->
    (length left - i_L + (length right - i_R) <= S fuel)%nat ->
    0 <= m_L -> 0 <= m_R ->
    exists T,
      transport_loop fuel left right i_L i_R m_L m_R = Some T /\
      greedy left right i_L i_R m_L m_R T /\
      Forall (fun t => 0 <= snd t /\ (fst (fst t) < length left)%nat
                       /\ (snd (fst t) < length right)%nat) T /\
      (m_L + rest left i_L == m_R + rest right i_R ->
       Qsum (transported T) == m_L + rest left i_L).
Proof.
  intros HposL HposR.
  induction fuel as [| fuel IH]; intros i_L i_R m_L m_R HiL HiR Hfuel HmL HmR;
    [lia |].
  simpl. destruct (Qltb m_L m_R) eqn:E.
  - apply Qltb_lt in E.
    destruct (length left <=? S i_L)%nat eqn:EL.
    + apply Nat.leb_le in EL. eexists. split; [reflexivity |].
      split; [apply greedy_left_last; assumption |].
      split; [repeat constructor; simpl; assumption |].
      intros _. unfold transported. simpl map. rewrite Qsum_cons.
      rewrite rest_last by exact EL. unfold Qsum. simpl. ring.
    + apply Nat.leb_gt in EL.
      destruct (IH (S i_L) i_R (mass (mget left (S i_L))) (m_R - m_L))
        as (T & HT & HG & HF & HS); try lia; try lra.
      { apply mget_nonneg, HposL. }
      rewrite HT. eexists. split; [reflexivity |].
      split; [apply greedy_left_next; assumption |].
      split; [constructor; [simpl; auto | exact HF] |].
      intros Heq. unfold transported in *. simpl map. rewrite Qsum_cons.
      rewrite (rest_next left i_L) in Heq |- * by exact EL.
      simpl. rewrite HS; lra.
  - apply Qltb_ge in E.
    destruct (length right <=? S i_R)%nat eqn:ER.
    + apply Nat.leb_le in ER. eexists. split; [reflexivity |].
      split; [apply greedy_right_last; assumption |].
      split; [repeat constructor; simpl; assumption |].
      intros Heq. unfold transported. simpl map. rewrite Qsum_cons.
      rewrite (rest_last right) in Heq by exact ER.
      unfold Qsum. simpl. lra.
    + apply Nat.leb_gt in ER.
      destruct (IH i_L (S i_R) (m_L - m_R) (mass (mget right (S i_R))))
        as (T & HT & HG & HF & HS); try lia; try lra.
      { apply mget_nonneg, HposR. }
      rewrite HT. eexists. split; [reflexivity |].
      split; [apply greedy_right_next; assumption |].
      split; [constructor; [simpl; auto | exact HF] |].
      intros Heq. unfold transported in *. simpl map. rewrite Qsum_cons.
      rewrite (rest_next right i_R) in Heq by exact ER.
      simpl. rewrite HS; lra.
Qed.

(** C5, as amended.  For two non-empty lists of non-negative masses that
    each sum to 1, [transport_matrix] terminates with a plan that follows
    the two-pointer greedy rule from the two first masses; every triple
    refers to a mass of either list and carries a non-negative weight, and
    the weights sum to 1. *)
Theorem C5_transport_matrix (left right : list spectral_mass) :
  left <> [] -> right <> [] ->
  Forall (fun m => 0 <= mass m) left ->
  Forall (fun m => 0 <= mass m) right ->
  Qsum (map mass left) == 1 -> Qsum (map mass right) == 1 ->
  exists T,
    transport_matrix left right = Some T /\
    greedy left right 0 0 (mass (mget left 0)) (mass (mget right 0)) T /\
    Forall (fun t => 0 <= snd t /\ (fst (fst t) < length left)%nat
                     /\ (snd (fst t) < length right)%nat) T /\
    Qsum (transported T) == 1.
Proof.
  intros HneL HneR HposL HposR HsL HsR.
  destruct left as [| l0 left']; [congruence |].
  destruct right as [| r0 right']; [congruence |].
  destruct (transport_loop_spec (l0 :: left') (r0 :: right') HposL HposR
              (length (l0 :: left') + length (r0 :: right')) 0 0
              (mass l0) (mass r0))
    as (T & HT & HG & HF & HS); try (simpl; lia).
  { inversion HposL; assumption. }
  { inversion HposR; assumption. }
  exists T. split; [exact HT | split; [exact HG | split; [exact HF |]]].
  assert (mass l0 + rest (l0 :: left') 0 == 1) as EL.
  { unfold rest. simpl drop. rewrite drop_0.
    simpl map in HsL. rewrite Qsum_cons in HsL. exact HsL. }
  assert (mass r0 + rest (r0 :: right') 0 == 1) as ER.
  { unfold rest. simpl drop. rewrite drop_0.
    simpl map in HsR. rewrite Qsum_cons in HsR. exact HsR. }
  rewrite HS; [exact EL | rewrite EL, ER; reflexivity].
Qed.

(** Two masses of one half against masses of one quarter and three
    quarters. *)
Lemma C5_transport_matrix_witness :
  let left :=
    [{| left_bin := 0; right_bin := 2; center_bin := 1; mass := 1 # 2 |};
     {| left_bin := 2; right_bin := 4; center_bin := 3; mass := 1 # 2 |}] in
  let right :=
    [{| left_bin := 0; right_bin := 1; center_bin := 0; mass := 1 # 4 |};
     {| left_bin := 1; right_bin := 4; center_bin := 2; mass := 3 # 4 |}] in
  exists T,
    transport_matrix left right = Some T /\
    greedy left right 0 0 (mass (mget left 0)) (mass (mget right 0)) T /\
    Forall (fun t => 0 <= snd t /\ (fst (fst t) < length left)%nat
                     /\ (snd (fst t) < length right)%nat) T /\
    Qsum (transported T) == 1.
Proof.
  apply C5_transport_matrix; try discriminate; try reflexivity;
    repeat constructor; discriminate.
Defined.

(** C5 as stated fails on a tie: with two masses of one half on either
    side the first triple exhausts both sides at once, only the right
    cursor advances, and the second triple carries the weight 0. *)
Lemma C5_counterexample :
  let half b :=
    {| left_bin := b; right_bin := S b; center_bin := b; mass := 1 # 2 |} in
  exists T,
    transport_matrix [half 0%nat; half 1%nat] [half 0%nat; half 1%nat] = Some T /\
    Qsum (map mass [half 0%nat; half 1%nat]) == 1 /\
    ~ Forall (fun t => 0 < snd t) T.
Proof.
  eexists. split; [vm_compute; reflexivity |]. split; [reflexivity |].
  intros H. inversion H as [| t l _ H2]; subst.
  inversion H2 as [| t' l' H0 _]; subst. vm_compute in H0. discriminate.
Qed.

End MatcherFacts.

(** ** The spectral-mass grouper *)

Module GrouperFacts.
Import Transport MatcherFacts.

Section WithKernel.
Context {K : Kernel}.

Lemma abs_sum_empty (spectrum : list point) (lo hi : nat) :
  (hi <= lo)%nat -> abs_sum spectrum lo hi = 0.
Proof. intros H. unfold abs_sum. apply for_range_nil, H. Qed.

Lemma abs_sum_S (spectrum : list point) (lo hi : nat) :
  (lo <= hi)%nat ->
  abs_sum spectrum lo (S hi)
  = abs_sum spectrum lo hi + cabs (value (pget spectrum hi)).
Proof. intros H. unfold abs_sum. rewrite for_range_S by exact H. reflexivity. Qed.

Lemma abs_sum_split (spectrum : list point) (lo mid hi : nat) :
  (lo <= mid <= hi)%nat ->
  abs_sum spectrum lo mid + abs_sum spectrum mid hi == abs_sum spectrum lo hi.
Proof.
  intros [H1 H2]. induction H2 as [| hi H2 IH].
  - rewrite (abs_sum_empty spectrum mid mid) by lia. ring.
  - rewrite !abs_sum_S by lia. rewrite <- IH. ring.
Qed.

Lemma chain_snoc (a : nat) (l : list spectral_mass) (m : spectral_mass)
    (c : nat) :
  chain a (l ++ [m]) c <->
  chain a l (left_bin m) /\ (left_bin m < right_bin m)%nat /\ right_bin m = c.
Proof.
  revert a. induction l as [| x l IH]; intros a; simpl.
  - intuition congruence.
  - rewrite IH. tauto.
Qed.

Lemma Qsum_app_one (l : list Q) (x : Q) : Qsum (l ++ [x]) == Qsum l + x.
Proof. unfold Qsum. rewrite fold_left_app. simpl. reflexivity. Qed.

Lemma group_step_inv (spectrum : list point) (mass_sum : Q) (i : nat)
    (s : group_state) :
  ~ mass_sum == 0 ->
  group_inv spectrum mass_sum i s ->
  group_inv spectrum mass_sum (S i) (group_step spectrum mass_sum i s).
Proof.
  intros Hms (Hch & Hle & Hlt & Hsum). unfold group_step.
  destruct (first s) eqn:Ef.
  { destruct i as [| i]; [| destruct (Hlt ltac:(lia)); congruence].
    unfold group_inv. simpl. repeat split; try assumption; lia. }
  destruct (Bool.eqb _ (sign s)).
  { unfold group_inv. repeat split; try assumption; lia. }
  destruct (sign s).
  { unfold group_inv. simpl. repeat split; try assumption; lia. }
  destruct (Qgtb (abs_sum spectrum (left_bin (cur s)) i) 0) eqn:Em.
  - apply Qgtb_gt in Em.
    assert (left_bin (cur s) < i)%nat as Hlt'.
    { destruct (Nat.lt_ge_cases (left_bin (cur s)) i) as [H | H]; [exact H |].
      rewrite abs_sum_empty in Em by lia. lra. }
    unfold group_inv. simpl. repeat split; try lia.
    + apply chain_snoc. simpl. repeat split; [exact Hch | exact Hlt'].
    + rewrite map_app. simpl map. rewrite Qsum_app_one, Hsum. simpl.
      rewrite <- (abs_sum_split spectrum 0 (left_bin (cur s)) i) by lia.
      field. exact Hms.
  - unfold group_inv. simpl. repeat split; try assumption; lia.
Qed.

Lemma chain_first (a c : nat) (l : list spectral_mass) :
  l <> [] -> chain a l c -> left_bin (mget l 0) = a.
Proof. destruct l; [congruence |]. simpl. tauto. Qed.

Lemma chain_next (a c : nat) (l : list spectral_mass) (i : nat) :
  chain a l c -> (S i < length l)%nat ->
  left_bin (mget l (S i)) = right_bin (mget l i).
Proof.
  revert a i. induction l as [| x l IH]; intros a i Hc Hi; [simpl in Hi; lia |].
  destruct Hc as (_ & _ & Hc). destruct i as [| i].
  - destruct l as [| y l]; [simpl in Hi; lia |]. simpl in *. tauto.
  - simpl in Hi. apply (IH _ i Hc). lia.
Qed.

Lemma chain_nonempty (a c : nat) (l : list spectral_mass) (i : nat) :
  chain a l c -> (i < length l)%nat ->
  (left_bin (mget l i) < right_bin (mget l i))%nat.
Proof.
  revert a i. induction l as [| x l IH]; intros a i Hc Hi; [simpl in Hi; lia |].
  destruct Hc as (_ & Hx & Hc). destruct i as [| i]; [exact Hx |].
  simpl in Hi. apply (IH _ i Hc). lia.
Qed.

Lemma chain_last (a c : nat) (l : list spectral_mass) :
  l <> [] -> chain a l c -> right_bin (mget l (length l - 1)) = c.
Proof.
  revert a. induction l as [| x l IH]; intros a Hne Hc; [congruence |].
  destruct Hc as (_ & _ & Hc). destruct l as [| y l].
  - simpl in *. exact Hc.
  - simpl length. replace (S (S (length l)) - 1)%nat with (S (length l)) by lia.
    change (mget (x :: y :: l) (S (length l))) with (mget (y :: l) (length l)).
    replace (length l) with (length (y :: l) - 1)%nat at 1 by (simpl; lia).
    apply (IH _ ltac:(congruence) Hc).
Qed.

(** The masses of a frame cover its bins and weigh 1 in all. *)
Lemma group_spectrum_chain (spectrum : list point) :
  spectrum <> [] ->
  chain 0 (group_spectrum spectrum) (length spectrum) /\
  Qsum (map mass (group_spectrum spectrum)) == 1.
Proof.
  intros Hne.
  assert (0 < length spectrum)%nat as Hn
    by (destruct spectrum; [congruence | simpl; lia]).
  unfold group_spectrum.
  destruct (Qltb (abs_sum spectrum 0 (length spectrum)) eps) eqn:E.
  - simpl. split; [tauto | reflexivity].
  - apply Qltb_ge in E. pose proof eps_pos as He.
    set (ms := abs_sum spectrum 0 (length spectrum)) in *.
    assert (~ ms == 0) as Hms by lra.
    assert (group_inv spectrum ms (length spectrum)
              (for_loop (length spectrum) (group_step spectrum ms)
                 {| done := [];
                    cur := {| left_bin := 0; right_bin := 0;
                              center_bin := 0; mass := 0 |};
                    sign := false; first := true |}))
      as (Hch & Hle & Hlt & Hsum).
    { apply for_loop_inv.
      - unfold group_inv. simpl. split; [reflexivity |].
        split; [lia |]. split; [lia |].
        rewrite abs_sum_empty by lia. unfold Qsum, Qdiv. simpl. ring.
      - intros i x _. apply group_step_inv, Hms. }
    set (s := for_loop _ _ _) in *.
    destruct (Hlt Hn) as [Hlt' _].
    split.
    + apply chain_snoc. simpl. repeat split; [exact Hch | exact Hlt'].
    + rewrite map_app. simpl map. rewrite Qsum_app_one, Hsum. simpl.
      transitivity (ms / ms); [| field; exact Hms].
      unfold ms at 3.
      rewrite <- (abs_sum_split spectrum 0 (left_bin (cur s)) (length spectrum))
        by lia.
      field. exact Hms.
Qed.

(** C7.  For a non-empty frame of [N] points, [group_spectrum] returns a
    non-empty list of masses whose bin ranges are non-empty, contiguous
    and cover [0, N) (the first begins at 0, each begins where the
    previous one ends, the last ends at [N]) and whose weights sum to 1;
    when the total magnitude of the frame is below [eps], it returns the
    single mass on [0, N) centred at [N / 2] with weight 1. *)
Theorem C7_group_spectrum (spectrum : list point) :
  spectrum <> [] ->
  let M := group_spectrum spectrum in
  let N := length spectrum in
  M <> [] /\
  left_bin (mget M 0) = 0%nat /\
  right_bin (mget M (length M - 1)) = N /\
  (forall i, (S i < length M)%nat ->
     left_bin (mget M (S i)) = right_bin (mget M i)) /\
  (forall i, (i < length M)%nat ->
     (left_bin (mget M i) < right_bin (mget M i))%nat) /\
  Qsum (map mass M) == 1 /\
  (abs_sum spectrum 0 N < eps ->
   M = [{| left_bin := 0; right_bin := N; center_bin := (N / 2)%nat;
           mass := 1 |}]).
Proof.
  intros Hne M N. destruct (group_spectrum_chain spectrum Hne) as [Hch Hsum].
  fold M in Hch, Hsum. fold N in Hch.
  assert (M <> []) as HM.
  { subst M. unfold group_spectrum.
    destruct (Qltb _ eps); [discriminate |].
    intros H. apply app_eq_nil in H. destruct H; discriminate. }
  split; [exact HM |].
  split; [apply (chain_first 0 N), Hch; exact HM |].
  split; [apply (chain_last 0 N), Hch; exact HM |].
  split; [intros i Hi; apply (chain_next 0 N); assumption |].
  split; [intros i Hi; apply (chain_nonempty 0 N); assumption |].
  split; [exact Hsum |].
  intros Hs. subst M N. unfold group_spectrum.
  apply Qltb_lt in Hs. rewrite Hs. reflexivity.
Qed.

End WithKernel.

(** A frame of four bins whose reassigned frequencies rise and fall
    twice. *)
Lemma C7_group_spectrum_witness :
  let pt (v f fr : Q) :=
    {| value := (v, 0); time := 0; freq := f; time_reassigned := 0;
       freq_reassigned := fr |} in
  let spectrum :=
    [pt 1 0 (1 # 2); pt 2 1 (4 # 5); pt 1 2 (5 # 2); pt 4 3 (14 # 5)] in
  let M := group_spectrum (K := RefKernel.kernel) spectrum in
  let N := length spectrum in
  M <> [] /\
  left_bin (mget M 0) = 0%nat /\
  right_bin (mget M (length M - 1)) = N /\
  (forall i, (S i < length M)%nat ->
     left_bin (mget M (S i)) = right_bin (mget M i)) /\
  (forall i, (i < length M)%nat ->
     (left_bin (mget M i) < right_bin (mget M i))%nat) /\
  Qsum (map mass M) == 1 /\
  (abs_sum (K := RefKernel.kernel) spectrum 0 N < eps ->
   M = [{| left_bin := 0; right_bin := N; center_bin := (N / 2)%nat;
           mass := 1 |}]).
Proof.
  intros pt spectrum.
  apply (C7_group_spectrum (K := RefKernel.kernel) spectrum). discriminate.
Defined.

Example group_spectrum_two_masses :
  let pt (v f fr : Q) :=
    {| value := (v, 0); time := 0; freq := f; time_reassigned := 0;
       freq_reassigned := fr |} in
  map (fun m => (left_bin m, center_bin m, right_bin m, Qred (mass m)))
    (group_spectrum (K := RefKernel.kernel)
       [pt 1 0 (1 # 2); pt 2 1 (4 # 5); pt 1 2 (5 # 2); pt 4 3 (14 # 5)])
  = [(0, 1, 2, 3 # 8); (2, 3, 4, 5 # 8)]%nat.
Proof. vm_compute. reflexivity. Qed.

End GrouperFacts.

(** ** Placing a mass *)

Module PlaceFacts.
Import Transport.

Section WithKernel.
Context {K : Kernel}.

Lemma place_bin_length m center scale f ps np input i s :
  length (pl_output (place_bin m center scale f ps np input i s))
  = length (pl_output s) /\
  length (pl_phases (place_bin m center scale f ps np input i s))
  = length (pl_phases s) /\
  length (pl_amplitudes (place_bin m center scale f ps np input i s))
  = length (pl_amplitudes s).
Proof.
  unfold place_bin.
  destruct (_ <? 0)%Z; [tauto |].
  destruct (_ >=? _)%Z; [tauto |].
  destruct (Qgtb _ _); simpl; rewrite ?length_insert; tauto.
Qed.

(** A source bin whose destination is below 0 or not below the length of
    the output leaves everything as it is. *)
Lemma place_bin_skip m center scale f ps np input i s :
  (Z.of_nat i + center - Z.of_nat (center_bin m) < 0 \/
   Z.of_nat (length (pl_output s))
   <= Z.of_nat i + center - Z.of_nat (center_bin m))%Z ->
  place_bin m center scale f ps np input i s = s.
Proof.
  intros H. unfold place_bin.
  destruct (_ <? 0)%Z eqn:E1; [reflexivity |].
  destruct (_ >=? _)%Z eqn:E2; [reflexivity |].
  apply Z.ltb_ge in E1. rewrite Z.geb_leb in E2. apply Z.leb_gt in E2. lia.
Qed.

(** A bin of the output that is not the destination of [i] is left as it
    is. *)
Lemma place_bin_other m center scale f ps np input i s j :
  Z.of_nat j <> (Z.of_nat i + center - Z.of_nat (center_bin m))%Z ->
  pget (pl_output (place_bin m center scale f ps np input i s)) j
  = pget (pl_output s) j /\
  vget (pl_phases (place_bin m center scale f ps np input i s)) j
  = vget (pl_phases s) j /\
  vget (pl_amplitudes (place_bin m center scale f ps np input i s)) j
  = vget (pl_amplitudes s) j.
Proof.
  intros H. unfold place_bin.
  destruct (_ <? 0)%Z eqn:E1; [tauto |].
  destruct (_ >=? _)%Z; [tauto |].
  apply Z.ltb_ge in E1.
  assert (Z.to_nat (Z.of_nat i + center - Z.of_nat (center_bin m)) <> j)
    as Hne by lia.
  unfold pget, vget.
  destruct (Qgtb _ _); simpl; rewrite ?nth_insert_ne by exact Hne; tauto.
Qed.

(** A loop whose body does nothing outside [lo', hi') is the loop over
    [lo', hi'). *)
Lemma for_range_trim {S : Type} (P : S -> Prop) (lo hi lo' hi' : nat)
    (body : nat -> S -> S) (s : S) :
  P s ->
  (forall i x, P x -> P (body i x)) ->
  (forall i x, P x -> (lo <= i < hi)%nat -> ~ (lo' <= i < hi')%nat ->
     body i x = x) ->
  (forall i, (lo' <= i < hi')%nat -> (lo <= i < hi)%nat) ->
  for_range lo hi body s = for_range lo' hi' body s.
Proof.
  intros Hs HP Hskip Hsub.
  assert (forall a b x, P x -> (lo <= a)%nat -> (b <= hi)%nat ->
            (forall i, (a <= i < b)%nat -> ~ (lo' <= i < hi')%nat) ->
            for_range a b body x = x) as Hidle.
  { intros a b x Hx Ha Hb Hout.
    destruct (Nat.le_gt_cases a b) as [Hab | Hab];
      [| apply for_range_nil; lia].
    apply (for_range_inv (fun _ y => y = x)); [exact Hab | reflexivity |].
    intros i y Hi ->. apply Hskip; [exact Hx | lia | apply Hout; lia]. }
  assert (forall a b c x, (a <= b <= c)%nat ->
            for_range a c body x = for_range b c body (for_range a b body x))
    as Hcut.
  { intros a b c x Habc. unfold for_range.
    replace (c - a)%nat with ((b - a) + (c - b))%nat by lia.
    rewrite seq_app, fold_left_app.
    replace (a + (b - a))%nat with b by lia. reflexivity. }
  destruct (Nat.le_gt_cases hi' lo') as [Hempty | Hne].
  - rewrite (for_range_nil lo' hi') by exact Hempty.
    apply Hidle; [exact Hs | lia | lia | intros; lia].
  - assert (lo <= lo' /\ hi' <= hi)%nat as [H1 H2].
    { pose proof (Hsub lo' ltac:(lia)). pose proof (Hsub (hi' - 1)%nat ltac:(lia)).
      lia. }
    rewrite (Hcut lo lo' hi) by lia.
    rewrite (Hidle lo lo') by (try assumption; try lia; intros; lia).
    rewrite (Hcut lo' hi' hi) by lia.
    apply Hidle; [| lia | lia | intros; lia].
    apply (for_range_inv (fun _ y => P y)); [lia | exact Hs |].
    intros i y _ Hy. apply HP, Hy.
Qed.

Lemma place_bin_trim m center N scale f ps np input i s :
  place_bin (trim m center N) center scale f ps np input i s
  = place_bin m center scale f ps np input i s.
Proof. reflexivity. Qed.

(** C10.  Whatever the mass and the shift, [place_mass] keeps the lengths
    of the output spectrum and of the two phase-tracking vectors; a bin
    of the output changes only if it is the destination
    [i + center - center_bin m] of a source bin [i] of the mass; and the
    source bins whose destination is below 0 or at or above the length
    [N] of the output contribute nothing: the result is that of placing
    the mass trimmed to the other source bins. *)
Theorem C10_place_mass (m : spectral_mass) (center : Z)
    (scale interpolated_freq center_phase : Q) (input : list point)
    (next_phase : Q) (s : place_state) :
  let N := length (pl_output s) in
  let s' := place_mass m center scale interpolated_freq center_phase input
              next_phase s in
  length (pl_output s') = N /\
  length (pl_phases s') = length (pl_phases s) /\
  length (pl_amplitudes s') = length (pl_amplitudes s) /\
  (forall j,
     (forall i, (left_bin m <= i < right_bin m)%nat ->
        Z.of_nat j <> (Z.of_nat i + center - Z.of_nat (center_bin m))%Z) ->
     pget (pl_output s') j = pget (pl_output s) j /\
     vget (pl_phases s') j = vget (pl_phases s) j /\
     vget (pl_amplitudes s') j = vget (pl_amplitudes s) j) /\
  s' = place_mass (trim m center N) center scale interpolated_freq
         center_phase input next_phase s.
Proof.
  intros N s'. subst s'. unfold place_mass.
  destruct (Qltb scale 0); [repeat split; reflexivity |].
  change (place_bin (trim m center N)) with (place_bin m).
  change (center_bin (trim m center N)) with (center_bin m).
  set (scale' := if Qltb (Qabs interpolated_freq) 30 then _ else scale).
  set (ps := center_phase - _).
  set (body := place_bin m center scale' interpolated_freq ps next_phase input).
  destruct (Nat.le_gt_cases (left_bin m) (right_bin m)) as [Hle | Hgt].
  - assert (let r := for_range (left_bin m) (right_bin m) body s in
            length (pl_output r) = N /\
            length (pl_phases r) = length (pl_phases s) /\
            length (pl_amplitudes r) = length (pl_amplitudes s)) as HL.
    { apply (for_range_inv (fun _ r =>
        length (pl_output r) = N /\
        length (pl_phases r) = length (pl_phases s) /\
        length (pl_amplitudes r) = length (pl_amplitudes s))); [exact Hle | tauto |].
      intros i x _ (H1 & H2 & H3). subst body. cbv beta.
      pose proof (place_bin_length m center scale' interpolated_freq ps
                    next_phase input i x) as (L1 & L2 & L3).
      split; [exact (eq_trans L1 H1) |].
      split; [exact (eq_trans L2 H2) | exact (eq_trans L3 H3)]. }
    simpl in HL. destruct HL as (H1 & H2 & H3).
    split; [exact H1 | split; [exact H2 | split; [exact H3 | split]]].
    + intros j Hj.
      apply (for_range_inv (fun hi r =>
        pget (pl_output r) j = pget (pl_output s) j /\
        vget (pl_phases r) j = vget (pl_phases s) j /\
        vget (pl_amplitudes r) j = vget (pl_amplitudes s) j));
        [exact Hle | tauto |].
      intros i x Hi (E1 & E2 & E3). subst body. cbv beta.
      pose proof (place_bin_other m center scale' interpolated_freq ps
                    next_phase input i x j (Hj i Hi)) as (O1 & O2 & O3).
      split; [exact (eq_trans O1 E1) |].
      split; [exact (eq_trans O2 E2) | exact (eq_trans O3 E3)].
    + apply (for_range_trim (fun x => length (pl_output x) = N)).
      * reflexivity.
      * intros i x Hx. subst body. cbv beta.
        pose proof (place_bin_length m center scale' interpolated_freq ps
                      next_phase input i x) as (L1 & _).
        exact (eq_trans L1 Hx).
      * intros i x Hx Hi Hout. subst body. apply place_bin_skip.
        rewrite Hx. unfold trim in Hout. cbn [left_bin right_bin] in Hout.
        lia.
      * unfold trim. cbn [left_bin right_bin]. lia.
  - rewrite (for_range_nil (left_bin m) (right_bin m)) by lia.
    rewrite for_range_nil by (unfold trim; cbn [left_bin right_bin]; lia).
    repeat split; reflexivity.
Qed.

End WithKernel.

(** A mass on the bins 1, 2, 3 shifted up by two bins in a spectrum of
    four: bin 0 of the output is no destination and stays as it is. *)
Lemma C10_place_mass_witness :
  let pt (v : Q) :=
    {| value := (v, 0); time := 0; freq := 0; time_reassigned := 0;
       freq_reassigned := 0 |} in
  let m := {| left_bin := 1; right_bin := 4; center_bin := 2; mass := 1 |} in
  let s := {| pl_output := [pt 5; pt 0; pt 0; pt 0];
              pl_phases := [0; 0; 0; 0]; pl_amplitudes := [0; 0; 0; 0] |} in
  pget (pl_output (place_mass (K := RefKernel.kernel) m 4 1 100 0
                     [pt 1; pt 2; pt 3; pt 4] 0 s)) 0
  = pget (pl_output s) 0.
Proof.
  intros pt m s.
  apply (proj1 (proj2 (proj2 (proj2
           (C10_place_mass (K := RefKernel.kernel) m 4 1 100 0
              [pt 1; pt 2; pt 3; pt 4] 0 s))))).
  intros i Hi. subst m. cbn [left_bin right_bin center_bin] in *. lia.
Defined.

(** The same mass and shift: only the source bin 1 lands inside, on
    bin 3. *)
Example place_mass_shifted_out :
  let pt (v : Q) :=
    {| value := (v, 0); time := 0; freq := 0; time_reassigned := 0;
       freq_reassigned := 0 |} in
  let m := {| left_bin := 1; right_bin := 4; center_bin := 2; mass := 1 |} in
  let s := {| pl_output := [pt 0; pt 0; pt 0; pt 0];
              pl_phases := [0; 0; 0; 0]; pl_amplitudes := [0; 0; 0; 0] |} in
  map (fun p => Qred (re (value p)))
    (pl_output (place_mass (K := RefKernel.kernel) m 4 1 100 0
                  [pt 1; pt 2; pt 3; pt 4] 0 s))
  = [0; 0; 0; 2].
Proof. vm_compute. reflexivity. Qed.

End PlaceFacts.

(** ** Silence *)

Module ZeroFacts.

Lemma all_zero_replicate (n : nat) : all_zero (replicate n 0).
Proof. apply Forall_replicate. reflexivity. Qed.

Lemma all_zero_vget (l : list Q) (i : nat) : all_zero l -> vget l i == 0.
Proof.
  intros H. unfold vget.
  destruct (Nat.lt_ge_cases i (length l)) as [Hi | Hi].
  - apply (proj1 (List.Forall_nth _ _) H). exact Hi.
  - rewrite nth_overflow by lia. reflexivity.
Qed.

Lemma all_zero_insert (l : list Q) (i : nat) (x : Q) :
  all_zero l -> x == 0 -> all_zero (<[i := x]> l).
Proof. intros Hl Hx. apply Forall_insert; assumption. Qed.

Lemma all_zero_map_seq (f : nat -> Q) (a n : nat) :
  (forall i, f i == 0) -> all_zero (map f (seq a n)).
Proof.
  intros H. unfold all_zero. rewrite List.Forall_map.
  apply List.Forall_forall. intros i _. apply H.
Qed.

Lemma all_zero_app (l1 l2 : list Q) :
  all_zero l1 -> all_zero l2 -> all_zero (l1 ++ l2).
Proof. intros H1 H2. apply Forall_app. split; assumption. Qed.

Lemma all_zero_drop (n : nat) (l : list Q) : all_zero l -> all_zero (drop n l).
Proof. intros H. apply Forall_drop, H. Qed.

Lemma Czeros_cget (l : list C) (i : nat) :
  Forall Cis_zero l -> Cis_zero (cget l i).
Proof.
  intros H. unfold cget.
  destruct (Nat.lt_ge_cases i (length l)) as [Hi | Hi].
  - apply (proj1 (List.Forall_nth _ _) H). exact Hi.
  - rewrite nth_overflow by lia. split; reflexivity.
Qed.

Lemma Czeros_map_seq (f : nat -> C) (a n : nat) :
  (forall i, Cis_zero (f i)) -> Forall Cis_zero (map f (seq a n)).
Proof.
  intros H. rewrite List.Forall_map.
  apply List.Forall_forall. intros i _. apply H.
Qed.

(** A loop that stores a zero somewhere at every iteration keeps a vector
    of zeros. *)
Lemma all_zero_for_loop (n : nat) (idx : nat -> nat) (v : nat -> list Q -> Q)
    (l : list Q) :
  all_zero l ->
  (forall i x, all_zero x -> v i x == 0) ->
  all_zero (for_loop n (fun i x => <[idx i := v i x]> x) l).
Proof.
  intros Hl Hv. apply (for_loop_inv (fun _ x => all_zero x)); [exact Hl |].
  intros i x _ Hx. apply all_zero_insert; [exact Hx | apply Hv, Hx].
Qed.

End ZeroFacts.

Module CdfFacts.
Import CdfMap Cdf ZeroFacts.

(** With nothing but zeros in both magnitude spectra, every deposit is a
    zero and the interpolated magnitudes are zeros, whatever the map and
    whatever [k]. *)
Lemma interpolate_with_zero (N : nat) (mag_X phase_X mag_Y phase_Y : list Q)
    (T : list Z) (k : Q) :
  all_zero mag_X -> all_zero mag_Y ->
  all_zero (fst (interpolate_with N mag_X phase_X mag_Y phase_Y T k)).
Proof.
  intros HX HY. unfold interpolate_with. cbn [fst].
  apply (for_loop_inv (fun _ a => all_zero (mag_out a)));
    [apply all_zero_replicate |].
  intros i a _ Ha. unfold accumulate.
  set (im := (1 - k) * vget mag_X i + k * vget mag_Y (Z.to_nat (vgetZ T i))).
  assert (im == 0) as Him.
  { subst im. rewrite (all_zero_vget mag_X), (all_zero_vget mag_Y) by assumption.
    ring. }
  assert (forall b w ph a', all_zero (mag_out a') -> w == 0 ->
            all_zero (mag_out (deposit b w ph a'))) as Hdep.
  { intros b w ph a' Ha' Hw. unfold deposit. cbn [mag_out].
    apply all_zero_insert; [exact Ha' |].
    rewrite (all_zero_vget _ _ Ha'), Hw. ring. }
  match goal with
  | |- all_zero (mag_out (if ?c then _ else ?a1)) =>
      assert (all_zero (mag_out a1)) as H1
  end.
  { destruct (_ <? _)%Z; [| exact Ha].
    apply Hdep; [exact Ha | rewrite Him; ring]. }
  destruct (_ && _)%bool; [| exact H1].
  apply Hdep; [exact H1 | rewrite Him; ring].
Qed.

Section Engine.
Context {K : Kernel}.

Lemma hop_same_config (k : Q) (st : t) : same_config st (hop k st).
Proof.
  unfold hop. destruct (interpolateSpectrum _ _ _ _ _ _) as [mo po].
  unfold same_config. cbn.
  repeat split.
  apply (for_loop_inv (fun _ x => length x = length (ola_buffer_ st)));
    [reflexivity |].
  intros i x _ Hx. rewrite length_insert. exact Hx.
Qed.

Lemma hop_phases (k : Q) (st : t) : phases_ (hop k st) = phases_ st.
Proof.
  unfold hop. destruct (interpolateSpectrum _ _ _ _ _ _) as [mo po].
  reflexivity.
Qed.

Lemma process_sample_same_config (k : Q) (st : t) (x : Q * Q) :
  same_config st (fst (process_sample k st x)).
Proof.
  unfold process_sample. cbn [fst].
  match goal with
  | |- context [if ?c then hop k ?s1 else ?s1'] =>
      pose proof (hop_same_config k s1) as Hh; destruct c
  end;
  unfold same_config in *; cbn in *;
  rewrite ?length_insert in *; intuition congruence.
Qed.

Lemma process_sample_phases (k : Q) (st : t) (x : Q * Q) :
  phases_ (fst (process_sample k st x)) = phases_ st.
Proof.
  unfold process_sample. cbn [fst phases_].
  destruct (_ <=? _)%nat; [rewrite hop_phases |]; reflexivity.
Qed.

Lemma process_acc (k : Q) (input : list (Q * Q)) (st : t) (out : list Q) :
  fold_left
    (fun acc x =>
       (fst (process_sample k (fst acc) x),
        snd acc ++ [snd (process_sample k (fst acc) x)]))
    input (st, out)
  = (fst (process st input k), out ++ snd (process st input k)).
Proof.
  unfold process. revert st out.
  induction input as [| x input IH]; intros st out; cbn [fold_left fst snd].
  - rewrite app_nil_r. reflexivity.
  - rewrite (IH _ (out ++ _)), (IH _ ([] ++ _)). cbn [fst snd].
    rewrite <- app_assoc. reflexivity.
Qed.

Lemma process_nil (k : Q) (st : t) : process st [] k = (st, []).
Proof. reflexivity. Qed.

Lemma process_cons (k : Q) (st : t) (x : Q * Q) (input : list (Q * Q)) :
  process st (x :: input) k
  = (fst (process (fst (process_sample k st x)) input k),
     snd (process_sample k st x)
     :: snd (process (fst (process_sample k st x)) input k)).
Proof.
  unfold process at 1. cbn [fold_left fst snd]. rewrite process_acc.
  reflexivity.
Qed.

(** Two consecutive calls are one call on the concatenated input. *)
Lemma process_app (k : Q) (st : t) (a b : list (Q * Q)) :
  process st (a ++ b) k
  = (fst (process (fst (process st a k)) b k),
     snd (process st a k) ++ snd (process (fst (process st a k)) b k)).
Proof.
  revert st. induction a as [| x a IH]; intros st.
  - rewrite process_nil. cbn [fst snd app].
    destruct (process st b k); reflexivity.
  - simpl app. rewrite !process_cons, IH. reflexivity.
Qed.

(** What every iteration of the sample loop keeps, [process] keeps; what
    holds of every sample it pops holds of the whole output. *)
Lemma process_inv (I : t -> Prop) (O : Q -> Prop) (G : Q * Q -> Prop)
    (k : Q) :
  (forall st x, I st -> G x ->
     I (fst (process_sample k st x)) /\ O (snd (process_sample k st x))) ->
  forall input st, I st -> Forall G input ->
    I (fst (process st input k)) /\ Forall O (snd (process st input k)).
Proof.
  intros Hstep. induction input as [| x input IH]; intros st Hst Hin.
  - rewrite process_nil. split; [exact Hst | constructor].
  - rewrite process_cons. cbn [fst snd].
    inversion Hin as [| ? ? Hx Hin']; subst.
    destruct (Hstep st x Hst Hx) as [H1 H2].
    destruct (IH _ H1 Hin') as [H3 H4].
    split; [exact H3 | constructor; assumption].
Qed.

Lemma same_config_refl (st : t) : same_config st st.
Proof. unfold same_config. tauto. Qed.

Lemma same_config_trans (a b c : t) :
  same_config a b -> same_config b c -> same_config a c.
Proof. unfold same_config. intuition congruence. Qed.

Lemma process_same_config (k : Q) (st : t) (input : list (Q * Q)) :
  same_config st (fst (process st input k)).
Proof.
  destruct (process_inv (same_config st) (fun _ => True) (fun _ => True) k)
    with (input := input) (st := st) as [H _].
  - intros s x Hs _. split; [| exact I].
    eapply same_config_trans; [exact Hs | apply process_sample_same_config].
  - apply same_config_refl.
  - apply Forall_true. intros; exact I.
  - exact H.
Qed.

Lemma process_phases (k : Q) (st : t) (input : list (Q * Q)) :
  phases_ (fst (process st input k)) = phases_ st.
Proof.
  destruct (process_inv (fun s => phases_ s = phases_ st) (fun _ => True)
              (fun _ => True) k)
    with (input := input) (st := st) as [H _].
  - intros s x Hs _. split; [| exact I].
    rewrite process_sample_phases. exact Hs.
  - reflexivity.
  - apply Forall_true. intros; exact I.
  - exact H.
Qed.

Section Silence.
Hypothesis HK : KernelZero K.

Lemma computeSTFT_zero (st : t) (frame : list Q) :
  all_zero frame -> Forall Cis_zero (computeSTFT st frame).
Proof.
  intros Hf. unfold computeSTFT. apply Czeros_map_seq. intros i.
  apply Czeros_cget, (r2c_zero K HK).
  apply all_zero_for_loop; [apply all_zero_replicate |].
  intros j x _. rewrite (all_zero_vget frame j Hf). ring.
Qed.

Lemma computeISTFT_zero (st : t) (spectrum : list C) :
  Forall Cis_zero spectrum -> all_zero (computeISTFT st spectrum).
Proof.
  intros Hs. unfold computeISTFT. apply all_zero_map_seq. intros i.
  rewrite (all_zero_vget (fftw_c2r _ _)); [ring |].
  apply (c2r_zero K HK), Czeros_map_seq. intros j.
  apply Czeros_cget, Hs.
Qed.

Lemma hop_quiet (k : Q) (st : t) : quiet st -> quiet (hop k st).
Proof.
  intros (Hm & Hs & Ho). unfold hop.
  set (main_frame := map _ (seq 0 (window_size_ st))).
  set (sidechain_frame := map _ (seq 0 (window_size_ st))).
  assert (all_zero main_frame) as Hmf
    by (apply all_zero_map_seq; intros; apply all_zero_vget, Hm).
  assert (all_zero sidechain_frame) as Hsf
    by (apply all_zero_map_seq; intros; apply all_zero_vget, Hs).
  pose proof (computeSTFT_zero st main_frame Hmf) as HX.
  pose proof (computeSTFT_zero st sidechain_frame Hsf) as HY.
  set (mag_X := map (fun j => cabs (cget (computeSTFT st main_frame) j)) _).
  set (mag_Y := map (fun j => cabs (cget (computeSTFT st sidechain_frame) j)) _).
  assert (all_zero mag_X) as HmX
    by (apply all_zero_map_seq; intros; apply (cabs_zero K HK), Czeros_cget, HX).
  assert (all_zero mag_Y) as HmY
    by (apply all_zero_map_seq; intros; apply (cabs_zero K HK), Czeros_cget, HY).
  set (phase_X := map _ _). set (phase_Y := map _ _).
  pose proof (interpolate_with_zero (num_bins_ st) mag_X phase_X mag_Y phase_Y
                (computeTransportMap (num_bins_ st) mag_X mag_Y) k HmX HmY)
    as Hmo.
  fold (interpolateSpectrum (num_bins_ st) mag_X phase_X mag_Y phase_Y k) in Hmo.
  destruct (interpolateSpectrum _ _ _ _ _ _) as [mo po]. cbn [fst] in Hmo.
  unfold quiet. cbn [main_buffer_ sidechain_buffer_ ola_buffer_].
  split; [exact Hm | split; [exact Hs |]].
  apply (for_loop_inv (fun _ x => all_zero x)); [exact Ho |].
  intros j x _ Hx. apply all_zero_insert; [exact Hx |].
  rewrite (all_zero_vget x _ Hx), (all_zero_vget (computeISTFT _ _)); [ring |].
  apply computeISTFT_zero, Czeros_map_seq. intros i.
  apply (polar_zero K HK), all_zero_vget, Hmo.
Qed.

Lemma process_sample_quiet (k : Q) (st : t) (x : Q * Q) :
  quiet st -> fst x == 0 /\ snd x == 0 ->
  quiet (fst (process_sample k st x)) /\ snd (process_sample k st x) == 0.
Proof.
  intros (Hm & Hs & Ho) [Hx1 Hx2]. unfold process_sample. cbn [fst snd].
  match goal with
  | |- context [if ?c then hop k ?s1 else _] =>
      assert (quiet s1) as Hq1
        by (unfold quiet; cbn; repeat split;
            [apply all_zero_insert | apply all_zero_insert |]; assumption);
      assert (quiet (if c then hop k s1 else s1)) as (Hm2 & Hs2 & Ho2)
        by (destruct c; [apply hop_quiet |]; exact Hq1);
      set (st2 := if c then hop k s1 else s1) in *
  end.
  split; [| apply all_zero_vget, Ho2].
  unfold quiet. cbn. repeat split; try assumption.
  apply all_zero_insert; [exact Ho2 | reflexivity].
Qed.

Lemma process_quiet (k : Q) (st : t) (input : list (Q * Q)) :
  quiet st -> zero_input input ->
  quiet (fst (process st input k)) /\ all_zero (snd (process st input k)).
Proof.
  intros Hq Hin.
  apply (process_inv quiet (fun y => y == 0)
           (fun x => fst x == 0 /\ snd x == 0) k); try assumption.
  intros s x Hs Hx. apply process_sample_quiet; assumption.
Qed.

End Silence.

End Engine.

End CdfFacts.

Module ReassignFacts.
Import Transport Reassign ZeroFacts GrouperFacts.

Section Engine.
Context {K : Kernel}.

Lemma reassign_config_refl (st : t) : same_config st st.
Proof. unfold same_config. tauto. Qed.

Lemma reassign_config_trans (a b c : t) :
  same_config a b -> same_config b c -> same_config a c.
Proof. unfold same_config. intuition congruence. Qed.

(** [processHop] touches the output ring, the overlap buffer and the
    phases, and nothing else. *)
Lemma processHop_frame (k : Q) (st : t) :
  same_config st (processHop k st) /\
  main_buffer_ (processHop k st) = main_buffer_ st /\
  sidechain_buffer_ (processHop k st) = sidechain_buffer_ st /\
  input_write_pos_ (processHop k st) = input_write_pos_ st /\
  output_read_pos_ (processHop k st) = output_read_pos_ st /\
  length (output_buffer_ (processHop k st)) = length (output_buffer_ st).
Proof.
  unfold processHop.
  destruct (interpolate _ _ _ _ _) as [ms ph].
  destruct (synthesizeWindow _ _) as [ho ov].
  unfold same_config. cbn. repeat split.
  apply (for_loop_inv (fun _ x => length x = length (output_buffer_ st)));
    [reflexivity |].
  intros i x _ Hx. rewrite length_insert. exact Hx.
Qed.

Lemma process_chunk_frame (k : Q) (input : list (Q * Q)) (st : t) (p : nat) :
  same_config st (fst (process_chunk k input st p)) /\
  output_read_pos_ (fst (process_chunk k input st p)) = output_read_pos_ st /\
  length (output_buffer_ (fst (process_chunk k input st p)))
  = length (output_buffer_ st).
Proof.
  unfold process_chunk. cbn [fst].
  match goal with
  | |- context [if ?c then _ else ?s1] =>
      destruct (processHop_frame k s1) as (Hc & _ & _ & _ & Hr & Hl);
      destruct c
  end;
  unfold same_config in *; cbn in *; intuition congruence.
Qed.

(** With samples left to read and the input state [ready], a chunk reads
    at least one sample and leaves the input state [ready]. *)
Lemma process_chunk_progress (k : Q) (input : list (Q * Q)) (st : t)
    (p : nat) :
  ready st -> (p < length input)%nat ->
  ready (fst (process_chunk k input st p)) /\
  (p < snd (process_chunk k input st p) <= length input)%nat.
Proof.
  intros [Hh Hw] Hp. unfold process_chunk. cbn [fst snd].
  split; [| lia].
  match goal with
  | |- context [if ?c then _ else ?s1] =>
      destruct (processHop_frame k s1) as (Hc & _ & _ & _ & _ & _);
      destruct c eqn:E
  end.
  - unfold ready, same_config in *. cbn in *.
    destruct Hc as (_ & _ & _ & _ & -> & _). lia.
  - apply Nat.leb_gt in E. unfold ready. cbn in *. lia.
Qed.

Lemma process_loop_S (k : Q) (input : list (Q * Q)) (fuel : nat) (st : t)
    (p : nat) :
  process_loop (S fuel) k input st p
  = if (length input <=? p)%nat then Some st
    else process_loop fuel k input (fst (process_chunk k input st p))
           (snd (process_chunk k input st p)).
Proof.
  cbn [process_loop]. destruct (_ <=? _)%nat; [reflexivity |].
  destruct (process_chunk k input st p); reflexivity.
Qed.

Lemma process_loop_done (k : Q) (input : list (Q * Q)) (fuel : nat) (st : t)
    (p : nat) :
  (length input <= p)%nat -> process_loop fuel k input st p = Some st.
Proof.
  intros H. apply Nat.leb_le in H.
  destruct fuel; cbn [process_loop]; rewrite H; reflexivity.
Qed.

(** The input loop ends: with [ready] input state, one unit of fuel per
    sample left is enough. *)
Lemma process_loop_some (k : Q) (input : list (Q * Q)) :
  forall (fuel : nat) (st : t) (p : nat),
    ready st -> (length input - p <= fuel)%nat ->
    exists st',
      process_loop fuel k input st p = Some st' /\
      ready st' /\ same_config st st' /\
      output_read_pos_ st' = output_read_pos_ st /\
      length (output_buffer_ st') = length (output_buffer_ st).
Proof.
  induction fuel as [| fuel IH]; intros st p Hr Hf.
  - exists st. rewrite process_loop_done by lia.
    split; [reflexivity |]. split; [exact Hr |].
    split; [apply reassign_config_refl |]. split; reflexivity.
  - rewrite process_loop_S. destruct (length input <=? p)%nat eqn:E.
    + exists st. split; [reflexivity |]. split; [exact Hr |].
      split; [apply reassign_config_refl |]. split; reflexivity.
    + apply Nat.leb_gt in E.
      destruct (process_chunk_progress k input st p Hr E) as [Hr' Hp'].
      destruct (process_chunk_frame k input st p) as (Hc & Ho & Hl).
      destruct (IH (fst (process_chunk k input st p))
                  (snd (process_chunk k input st p)) Hr' ltac:(lia))
        as (st' & E' & R' & C' & O' & L').
      exists st'. split; [exact E' |]. split; [exact R' |].
      split; [eapply reassign_config_trans; eassumption |].
      split; congruence.
Qed.

Lemma pop_outputs_S (n : nat) (st : t) :
  pop_outputs (S n) st
  = (fst (pop_output (fst (pop_outputs n st))),
     snd (pop_outputs n st) ++ [snd (pop_output (fst (pop_outputs n st)))]).
Proof.
  unfold pop_outputs. rewrite for_loop_S.
  destruct (for_loop n _ _) as [s o]. cbn [fst snd].
  destruct (pop_output s); reflexivity.
Qed.

Lemma pop_outputs_frame (n : nat) (st : t) :
  same_config st (fst (pop_outputs n st)) /\
  input_write_pos_ (fst (pop_outputs n st)) = input_write_pos_ st /\
  length (snd (pop_outputs n st)) = n.
Proof.
  induction n as [| n (Hc & Hw & Hl)].
  - split; [apply reassign_config_refl |]. split; reflexivity.
  - rewrite pop_outputs_S. cbn [fst snd].
    unfold same_config in *. cbn. rewrite length_app. cbn.
    intuition (try congruence; try lia).
Qed.

(** [process] returns. *)
Lemma process_some (k : Q) (st : t) (input : list (Q * Q)) :
  ready st ->
  exists st' out,
    process st input k = Some (st', out) /\
    ready st' /\ same_config st st' /\ length out = length input.
Proof.
  intros Hr. unfold process.
  destruct (process_loop_some k input (length input) st 0 Hr ltac:(lia))
    as (st1 & E & R & C & _).
  rewrite E.
  destruct (pop_outputs_frame (length input) st1) as (C2 & W2 & L2).
  exists (fst (pop_outputs (length input) st1)),
         (snd (pop_outputs (length input) st1)).
  split; [destruct (pop_outputs _ _); reflexivity |].
  split; [| split; [eapply reassign_config_trans; eassumption | exact L2]].
  unfold ready, same_config in *. intuition congruence.
Qed.

(** What every chunk keeps, the input loop keeps. *)
Lemma process_loop_inv (I : t -> Prop) (k : Q) (input : list (Q * Q)) :
  (forall st p, I st -> I (fst (process_chunk k input st p))) ->
  forall fuel st p st',
    I st -> process_loop fuel k input st p = Some st' -> I st'.
Proof.
  intros Hstep. induction fuel as [| fuel IH]; intros st p st' Hst E.
  - cbn [process_loop] in E. destruct (_ <=? _)%nat; congruence.
  - rewrite process_loop_S in E. destruct (_ <=? _)%nat; [congruence |].
    eapply IH; [| exact E]. apply Hstep, Hst.
Qed.

Section Silence.
Hypothesis HK : KernelZero K.

Lemma abs_sum_zero (spectrum : list point) (lo hi : nat) :
  Forall (fun p => Cis_zero (value p)) spectrum ->
  abs_sum spectrum lo hi == 0.
Proof.
  intros H. destruct (Nat.le_gt_cases lo hi) as [Hle | Hgt].
  - unfold abs_sum.
    apply (for_range_inv (fun _ s => s == 0)); [exact Hle | reflexivity |].
    intros i x _ Hx. rewrite Hx.
    rewrite (cabs_zero K HK); [ring |].
    unfold pget. destruct (Nat.lt_ge_cases i (length spectrum)) as [Hi | Hi].
    + apply (proj1 (List.Forall_nth _ _) H). exact Hi.
    + rewrite nth_overflow by lia. split; reflexivity.
  - rewrite abs_sum_empty by lia. reflexivity.
Qed.

(** Two frames without magnitude interpolate to a frame of zeros, and
    the phases are left as they are. *)
Lemma interpolate_silent (left right : list point) (phases : list Q)
    (window_size k : Q) :
  Forall (fun p => Cis_zero (value p)) left ->
  Forall (fun p => Cis_zero (value p)) right ->
  Forall (fun p => Cis_zero (value p))
    (fst (interpolate left right phases window_size k)) /\
  snd (interpolate left right phases window_size k) = phases.
Proof.
  intros HL HR. unfold interpolate.
  pose proof eps_pos as He.
  assert (Qltb (abs_sum left 0 (length left)) eps = true) as ->
    by (apply Qltb_lt; rewrite abs_sum_zero by exact HL; exact He).
  assert (Qltb (abs_sum right 0 (length right)) eps = true) as ->
    by (apply Qltb_lt; rewrite abs_sum_zero by exact HR; exact He).
  cbn. split; [| reflexivity].
  rewrite List.Forall_map. apply List.Forall_forall. intros p _.
  split; reflexivity.
Qed.

Lemma windowed_zero (st : t) (input : list Q) (w : Q -> Q) :
  all_zero input -> all_zero (windowed st input w).
Proof.
  intros H. unfold windowed.
  apply all_zero_for_loop; [apply all_zero_replicate |].
  intros i x _. rewrite (all_zero_vget input i H). ring.
Qed.

Lemma analyzeWindow_zero (st : t) (input : list Q) :
  all_zero input ->
  Forall (fun p => Cis_zero (value p)) (analyzeWindow st input).
Proof.
  intros H. unfold analyzeWindow.
  rewrite List.Forall_map. apply List.Forall_forall. intros i _. cbn [value].
  apply Czeros_cget, (r2c_zero K HK), windowed_zero, H.
Qed.

Lemma synthesizeWindow_zero (st : t) (spectrum : list point) :
  Forall (fun p => Cis_zero (value p)) spectrum ->
  all_zero (overlap_buffer_ st) ->
  all_zero (fst (synthesizeWindow st spectrum)) /\
  all_zero (snd (synthesizeWindow st spectrum)).
Proof.
  intros Hs Ho. unfold synthesizeWindow. cbn [fst snd].
  set (window := fftw_c2r _ _).
  assert (all_zero window) as Hw.
  { apply (c2r_zero K HK). rewrite List.Forall_map. exact Hs. }
  set (overlap := for_loop _ _ _).
  assert (all_zero overlap) as Hov.
  { apply (for_loop_inv (fun _ x => all_zero x)); [exact Ho |].
    intros i x _ Hx. apply all_zero_insert; [exact Hx |].
    rewrite (all_zero_vget x i Hx), (all_zero_vget window _ Hw).
    unfold Qdiv. ring. }
  split.
  - apply all_zero_map_seq. intros i. apply all_zero_vget, Hov.
  - unfold shift_left.
    apply all_zero_app; [apply all_zero_drop, Hov | apply all_zero_replicate].
Qed.

Lemma processHop_quiet (k : Q) (st : t) : quiet st -> quiet (processHop k st).
Proof.
  intros (Hm & Hs & Hob & Hov). unfold processHop.
  destruct (interpolate_silent (analyzeWindow st (main_buffer_ st))
              (analyzeWindow st (sidechain_buffer_ st)) (phases_ st)
              (window_size_ st) k) as [Hz _];
    [apply analyzeWindow_zero, Hm | apply analyzeWindow_zero, Hs |].
  destruct (interpolate _ _ _ _ _) as [ms ph]. cbn [fst] in Hz.
  destruct (synthesizeWindow_zero st ms Hz Hov) as [Hho Hov'].
  destruct (synthesizeWindow st ms) as [ho ov]. cbn [fst snd] in *.
  unfold quiet. cbn.
  split; [exact Hm | split; [exact Hs | split; [| exact Hov']]].
  apply all_zero_for_loop; [exact Hob |].
  intros i x _. apply all_zero_vget, Hho.
Qed.

Lemma copy_in_zero (sel : Q * Q -> Q) (input : list (Q * Q))
    (from at_ c : nat) (buf : list Q) :
  (forall x, fst x == 0 /\ snd x == 0 -> sel x == 0) ->
  zero_input input -> all_zero buf ->
  all_zero (copy_in sel input from at_ c buf).
Proof.
  intros Hsel Hin Hb. unfold copy_in.
  apply all_zero_for_loop; [exact Hb |].
  intros j x _. apply Hsel.
  destruct (Nat.lt_ge_cases (from + j) (length input)) as [Hi | Hi].
  - apply (proj1 (List.Forall_nth _ _) Hin). exact Hi.
  - rewrite nth_overflow by lia. split; reflexivity.
Qed.

Lemma process_chunk_quiet (k : Q) (input : list (Q * Q)) (st : t) (p : nat) :
  zero_input input -> quiet st -> quiet (fst (process_chunk k input st p)).
Proof.
  intros Hin (Hm & Hs & Hob & Hov). unfold process_chunk. cbn [fst].
  match goal with
  | |- context [if ?c then _ else ?s1] =>
      assert (quiet s1) as Hq1;
      [| pose proof (processHop_quiet k s1 Hq1) as (Hm' & Hs' & Hob' & Hov');
         destruct c; [| exact Hq1] ]
  end.
  - unfold quiet. cbn.
    split; [apply copy_in_zero; tauto |].
    split; [apply copy_in_zero; tauto |]. split; assumption.
  - unfold quiet. cbn. unfold shift_left.
    split; [apply all_zero_app;
              [apply all_zero_drop, Hm' | apply all_zero_replicate] |].
    split; [apply all_zero_app;
              [apply all_zero_drop, Hs' | apply all_zero_replicate] |].
    split; assumption.
Qed.

Lemma pop_outputs_quiet (n : nat) (st : t) :
  quiet st ->
  quiet (fst (pop_outputs n st)) /\ all_zero (snd (pop_outputs n st)).
Proof.
  intros Hq. induction n as [| n [IH1 IH2]].
  - split; [exact Hq | constructor].
  - rewrite pop_outputs_S. cbn [fst snd].
    destruct IH1 as (Hm & Hs & Hob & Hov). split.
    + unfold quiet. cbn.
      split; [exact Hm | split; [exact Hs | split; [| exact Hov]]].
      apply all_zero_insert; [exact Hob | reflexivity].
    + apply all_zero_app; [exact IH2 |].
      constructor; [| constructor]. cbn. apply all_zero_vget, Hob.
Qed.

(** Silence in, silence out: from a quiet engine, a call on zeros
    returns, writes zeros only and leaves the engine quiet. *)
Lemma reassign_process_quiet (k : Q) (st : t) (input : list (Q * Q)) :
  ready st -> quiet st -> zero_input input ->
  exists st' out,
    process st input k = Some (st', out) /\
    ready st' /\ quiet st' /\ all_zero out.
Proof.
  intros Hr Hq Hin. unfold process.
  destruct (process_loop_some k input (length input) st 0 Hr ltac:(lia))
    as (st1 & E & R & C & _).
  assert (quiet st1) as Hq1.
  { apply (process_loop_inv quiet k input) with (3 := E); [| exact Hq].
    intros s p Hs. apply process_chunk_quiet; assumption. }
  rewrite E.
  destruct (pop_outputs_quiet (length input) st1 Hq1) as [Hq2 Ho].
  destruct (pop_outputs_frame (length input) st1) as (C2 & W2 & L2).
  exists (fst (pop_outputs (length input) st1)),
         (snd (pop_outputs (length input) st1)).
  split; [destruct (pop_outputs _ _); reflexivity |].
  split; [| split; assumption].
  unfold ready, same_config in *. intuition congruence.
Qed.

End Silence.

End Engine.

End ReassignFacts.

Module SilenceFacts.
Import ZeroFacts.

(** The reference kernel maps zeros to zeros. *)
Lemma rnd_zero (x : Q) : x == 0 -> RefKernel.rnd x == 0.
Proof.
  intros H. unfold RefKernel.rnd.
  assert (x * inject_Z (2 ^ 40) == 0) as E by (rewrite H; ring).
  rewrite (Qfloor_comp _ _ E). reflexivity.
Qed.

Lemma ref_kernel_zero : KernelZero RefKernel.kernel.
Proof.
  constructor.
  - intros z [Hr Hi]. cbn. unfold RefKernel.cabsq.
    apply Qeq_bool_iff in Hi. rewrite Hi. rewrite Hr. reflexivity.
  - intros m phi Hm. cbn. unfold RefKernel.polarq, Cis_zero. cbn.
    split; apply rnd_zero; rewrite Hm; ring.
  - intros n x Hx. cbn. unfold RefKernel.r2c.
    apply Czeros_map_seq. intros k.
    assert (Cis_zero
              (for_loop n
                 (fun j s =>
                    Cadd s (vget x j * RefKernel.cosq (RefKernel.angle n j k),
                            - (vget x j * RefKernel.sinq (RefKernel.angle n j k))))
                 Czero)) as [H1 H2].
    { apply (for_loop_inv (fun _ s => Cis_zero s)); [split; reflexivity |].
      intros j s _ [H1 H2]. unfold Cis_zero, Cadd. cbn.
      rewrite H1, H2, (all_zero_vget x j Hx). split; ring. }
    split; cbn; apply rnd_zero; assumption.
  - intros n X HX. cbn. unfold RefKernel.c2r.
    apply all_zero_map_seq. intros j. apply rnd_zero.
    apply (for_loop_inv (fun _ s => s == 0)); [reflexivity |].
    intros k s _ Hs. rewrite Hs.
    destruct (Czeros_cget X k HX) as [A1 A2].
    destruct (Czeros_cget X (n - k) HX) as [B1 B2].
    destruct (k <=? n / 2)%nat; cbn [re im fst snd].
    + unfold re, im in *. rewrite A1, A2. ring.
    + unfold re, im in *. rewrite B1, B2. ring.
Qed.

Section WithKernel.
Context {K : Kernel}.
Hypothesis HK : KernelZero K.

Lemma cdf_calls_quiet (k : Q) (buffers : list (list (Q * Q))) :
  Forall zero_input buffers ->
  forall acc, Cdf.quiet (fst acc) -> all_zero (snd acc) ->
    all_zero
      (snd (fold_left
              (fun acc buffer =>
                 (fst (Cdf.process (fst acc) buffer k),
                  snd acc ++ snd (Cdf.process (fst acc) buffer k)))
              buffers acc)).
Proof.
  induction 1 as [| b buffers Hb _ IH]; intros acc Hq Ho; [exact Ho |].
  cbn [fold_left].
  destruct (CdfFacts.process_quiet HK k (fst acc) b Hq Hb) as [Hq' Ho'].
  apply IH; cbn [fst snd]; [exact Hq' | apply all_zero_app; assumption].
Qed.

Lemma reassign_calls_quiet (k : Q) (buffers : list (list (Q * Q))) :
  Forall zero_input buffers ->
  forall st out, Reassign.ready st -> Reassign.quiet st -> all_zero out ->
    exists st' out',
      fold_left
        (fun acc buffer =>
           match acc with
           | Some (st, out) =>
               match Reassign.process st buffer k with
               | Some (st', o) => Some (st', out ++ o)
               | None => None
               end
           | None => None
           end)
        buffers (Some (st, out)) = Some (st', out') /\
      all_zero out'.
Proof.
  induction 1 as [| b buffers Hb _ IH]; intros st out Hr Hq Ho.
  - exists st, out. split; [reflexivity | exact Ho].
  - cbn [fold_left].
    destruct (ReassignFacts.reassign_process_quiet HK k st b Hr Hq Hb)
      as (st1 & o1 & E & Hr1 & Hq1 & Ho1).
    rewrite E. apply IH; [exact Hr1 | exact Hq1 |].
    apply all_zero_app; assumption.
Qed.


End WithKernel.


End SilenceFacts.

(** ** Latency *)

Module LatencyFacts.

Section WithKernel.
Context {K : Kernel}.

(** C1.  The CDF engine reports half its window, the reassignment engine
    [(2 * hop_divisor - 1) * hop_size]; the CDF engine built with
    (44100, 100, 4, 2) reports 2205; and a call of [process] leaves the
    reported latency of either engine as it was (for the reassignment
    engine, whose call returns when the hop is positive). *)
Theorem C1_latency :
  (forall st : Cdf.t,
     Cdf.getLatencySamples st = (Cdf.window_size_ st / 2)%nat) /\
  (forall st : Reassign.t,
     Reassign.getLatencySamples st
     = ((2 * Reassign.hop_divisor_ st - 1)
        * Z.of_nat (Reassign.hop_size_ st))%Z) /\
  Cdf.getLatencySamples (Cdf.new 44100 100 4 2) = 2205%nat /\
  (forall st input k,
     Cdf.getLatencySamples (fst (Cdf.process st input k))
     = Cdf.getLatencySamples st) /\
  (forall st input k, Reassign.ready st ->
     exists st' out,
       Reassign.process st input k = Some (st', out) /\
       Reassign.getLatencySamples st' = Reassign.getLatencySamples st).
Proof.
  split; [reflexivity |]. split; [reflexivity |].
  split; [reflexivity |]. split.
  - intros st input k. unfold Cdf.getLatencySamples.
    destruct (CdfFacts.process_same_config k st input) as (_ & -> & _).
    reflexivity.
  - intros st input k Hr.
    destruct (ReassignFacts.process_some k st input Hr)
      as (st' & out & E & _ & C & _).
    exists st', out. split; [exact E |].
    unfold Reassign.getLatencySamples, Reassign.same_config in *.
    destruct C as (_ & _ & _ & _ & -> & -> & _). reflexivity.
Qed.

End WithKernel.

(** The reassignment engine built with (44100, 100, 4, 2): 4416 samples
    of window, 552 of hop, 3864 of latency, before and after a call. *)
Lemma C1_latency_witness :
  Reassign.getLatencySamples (Reassign.new 44100 100 4 2) = 3864%Z /\
  exists st' out,
    Reassign.process (K := RefKernel.kernel) (Reassign.new 44100 100 4 2)
      [(1, 0); (0, 1)] (1 # 2) = Some (st', out) /\
    Reassign.getLatencySamples st'
    = Reassign.getLatencySamples (Reassign.new 44100 100 4 2).
Proof.
  split; [reflexivity |].
  apply (proj2 (proj2 (proj2 (proj2 (C1_latency (K := RefKernel.kernel)))))).
  unfold Reassign.ready. split; apply Nat.ltb_lt; vm_compute; reflexivity.
Defined.

End LatencyFacts.

(** ** The interpolation factor, the silent frames and the phases of the
    CDF engine; block sizes *)

Module FactorFacts.
Import CdfMap Cdf CdfMapFacts CdfFacts ZeroFacts.

Lemma clamp01_id (k : Q) : 0 <= k <= 1 -> clamp01 k = k.
Proof.
  intros [H0 H1]. unfold clamp01.
  apply Qltb_ge in H0. apply Qltb_ge in H1. rewrite H0, H1. reflexivity.
Qed.

Lemma map_seq_const {A : Type} (f : nat -> A) (n : nat) (c : A) :
  (forall i, (i < n)%nat -> f i = c) -> map f (seq 0 n) = replicate n c.
Proof.
  assert (forall a, (forall i, (a <= i < a + n)%nat -> f i = c) ->
            map f (seq a n) = replicate n c) as G.
  { induction n as [| n IH]; intros a H; [reflexivity |].
    simpl. rewrite (H a) by lia. f_equal. apply IH. intros i Hi. apply H. lia. }
  intros H. apply G. intros i Hi. apply H. lia.
Qed.

(** A source of zeros is mapped to bin 0 throughout. *)
Lemma computeTransportMap_zero_source (N : nat) (mag_X mag_Y : list Q) :
  length mag_X = N -> length mag_Y = N ->
  all_zero mag_X -> Forall (Qle 0) mag_Y ->
  computeTransportMap N mag_X mag_Y = replicate N 0%Z.
Proof.
  intros HX HY Hz Hpos. rewrite computeTransportMap_eq.
  apply map_seq_const. intros i Hi.
  set (cY := cdf N mag_Y (std_max (total N mag_Y) eps)).
  set (target := vget (cdf N mag_X (std_max (total N mag_X) eps)) i - eps).
  pose proof eps_pos as He.
  assert (forall j, (j < N)%nat -> vget cY j == F_spec mag_Y j) as HcY.
  { intros j Hj. subst cY. rewrite <- HY. apply cdf_F_spec. lia. }
  assert (forall n, total n mag_X == 0) as Htot.
  { induction n as [| n IH]; [reflexivity |].
    rewrite total_S, IH, (all_zero_vget mag_X n Hz). ring. }
  assert (target < 0) as Ht.
  { subst target.
    destruct (cdf_spec N mag_X (std_max (total N mag_X) eps)) as [_ Hc].
    rewrite (Hc i Hi), Htot. unfold Qdiv. ring_simplify. lra. }
  assert (0 <= vget cY 0) as H0.
  { rewrite HcY by lia. unfold F_spec.
    pose proof (std_max_ge_r (Qsum mag_Y) eps) as Hs.
    rewrite total_take by lia.
    pose proof (total_nonneg 1 mag_Y Hpos) as Hn.
    apply Qle_shift_div_l; lra. }
  destruct (bsearch_spec (Z.of_nat N) cY target) with
    (fuel := S (S N)) (left := 0%Z) (right := (Z.of_nat N - 1)%Z)
    (result := (Z.of_nat N - 1)%Z)
    as (c & Hc & Hr & Hlow & _); try lia.
  { intros a b Hab Hb Ha.
    rewrite HcY in Ha |- * by lia.
    pose proof (F_spec_mono mag_Y (Z.to_nat a) (Z.to_nat b) Hpos ltac:(lia)).
    lra. }
  destruct (Z.eq_dec c 0%Z) as [-> | Hne]; [lia |].
  pose proof (Hlow 0%Z ltac:(lia)) as Hl.
  change (Z.to_nat 0) with 0%nat in Hl. lra.
Qed.

(** C4, as amended.  In the CDF engine the map is built at every hop,
    silent or not: [interpolateSpectrum] is the interpolation along the
    map that [computeTransportMap] returns for its two spectra.  What
    silence changes is the map and the deposits: a source of zeros sends
    every bin to bin 0 of a non-negative target, and two spectra of zeros
    give magnitudes of zeros. *)
Theorem C4_map_always_built (N : nat) (mag_X phase_X mag_Y phase_Y : list Q)
    (k : Q) :
  interpolateSpectrum N mag_X phase_X mag_Y phase_Y k
  = interpolate_with N mag_X phase_X mag_Y phase_Y
      (computeTransportMap N mag_X mag_Y) k /\
  (length mag_X = N -> length mag_Y = N ->
   all_zero mag_X -> Forall (Qle 0) mag_Y ->
   computeTransportMap N mag_X mag_Y = replicate N 0%Z) /\
  (all_zero mag_X -> all_zero mag_Y ->
   all_zero (fst (interpolateSpectrum N mag_X phase_X mag_Y phase_Y k))).
Proof.
  split; [reflexivity |]. split.
  - apply computeTransportMap_zero_source.
  - intros HX HY. apply interpolate_with_zero; assumption.
Qed.

(** A source of three zeros against the target 1, 2, 3. *)
Lemma C4_map_always_built_witness :
  computeTransportMap 3 [0; 0; 0] [1; 2; 3] = replicate 3 0%Z.
Proof.
  apply (proj1 (proj2 (C4_map_always_built 3 [0; 0; 0] [0; 0; 0] [1; 2; 3]
                         [0; 0; 0] (1 # 2))));
    try reflexivity; repeat constructor; discriminate.
Defined.

(** C4 as stated fails: with a silent source and the target 1, 2, 3 at
    [k = 1/2], the short-circuit would return the target scaled by [k],
    that is 1/2, 1, 3/2; the engine builds the map, which is 0 throughout,
    and deposits 3/4, 3/4, 0 along it. *)
Lemma C4_counterexample :
  short_circuit_spec [0; 0; 0] [1; 2; 3] (1 # 2)
  = Some [(1 # 2) * 1; (1 # 2) * 2; (1 # 2) * 3] /\
  computeTransportMap 3 [0; 0; 0] [1; 2; 3] = [0; 0; 0]%Z /\
  Forall2 Qeq
    (fst (interpolateSpectrum 3 [0; 0; 0] [0; 0; 0] [1; 2; 3] [0; 0; 0] (1 # 2)))
    [3 # 4; 3 # 4; 0] /\
  ~ Forall2 Qeq
      (fst (interpolateSpectrum 3 [0; 0; 0] [0; 0; 0] [1; 2; 3] [0; 0; 0] (1 # 2)))
      [(1 # 2) * 1; (1 # 2) * 2; (1 # 2) * 3].
Proof.
  split; [reflexivity |]. split; [vm_compute; reflexivity |]. split.
  - match goal with
    | |- Forall2 Qeq ?l _ =>
        let l' := eval vm_compute in l in change l with l'
    end.
    repeat constructor.
  - match goal with
    | |- ~ Forall2 Qeq ?l _ =>
        let l' := eval vm_compute in l in change l with l'
    end.
    intros H. inversion H as [| ? ? ? ? H1 _]; subst.
    vm_compute in H1. discriminate.
Qed.

Section WithKernel.
Context {K : Kernel}.

Lemma hop_with_phases (k : Q) (st : t) (phi : list Q) :
  hop k (with_phases st phi) = with_phases (hop k st) phi.
Proof.
  unfold hop, with_phases, computeSTFT, computeISTFT.
  cbn [sample_rate_ window_size_ hop_size_ fft_size_ num_bins_ main_buffer_
       sidechain_buffer_ output_buffer_ buffer_write_pos_ buffer_read_pos_
       samples_in_buffer_ window_ phases_ ola_buffer_ ola_write_pos_].
  match goal with
  | |- context [interpolateSpectrum ?a ?b ?c ?d ?e ?f] =>
      destruct (interpolateSpectrum a b c d e f) as [mo po]
  end.
  reflexivity.
Qed.

Lemma process_sample_with_phases (k : Q) (st : t) (phi : list Q) (x : Q * Q) :
  process_sample k (with_phases st phi) x
  = (with_phases (fst (process_sample k st x)) phi,
     snd (process_sample k st x)).
Proof.
  unfold process_sample. cbn [fst snd].
  match goal with
  | |- context [hop k ?s] =>
      match s with
      | context [phi] => change s with (with_phases
          {| sample_rate_ := sample_rate_ st;
             window_size_ := window_size_ st;
             hop_size_ := hop_size_ st;
             fft_size_ := fft_size_ st;
             num_bins_ := num_bins_ st;
             main_buffer_ := <[buffer_write_pos_ st := fst x]> (main_buffer_ st);
             sidechain_buffer_ :=
               <[buffer_write_pos_ st := snd x]> (sidechain_buffer_ st);
             output_buffer_ := output_buffer_ st;
             buffer_write_pos_ :=
               ((buffer_write_pos_ st + 1) mod window_size_ st)%nat;
             buffer_read_pos_ := buffer_read_pos_ st;
             samples_in_buffer_ := (samples_in_buffer_ st + 1)%nat;
             window_ := window_ st;
             phases_ := phases_ st;
             ola_buffer_ := ola_buffer_ st;
             ola_write_pos_ := ola_write_pos_ st |} phi)
      end
  end.
  rewrite hop_with_phases.
  cbn [sample_rate_ window_size_ hop_size_ fft_size_ num_bins_ main_buffer_
       sidechain_buffer_ output_buffer_ buffer_write_pos_ buffer_read_pos_
       samples_in_buffer_ window_ phases_ ola_buffer_ ola_write_pos_
       with_phases].
  destruct (_ <=? _)%nat; reflexivity.
Qed.

Lemma process_with_phases (k : Q) (input : list (Q * Q)) (st : t)
    (phi : list Q) :
  process (with_phases st phi) input k
  = (with_phases (fst (process st input k)) phi, snd (process st input k)).
Proof.
  revert st. induction input as [| x input IH]; intros st.
  - rewrite !process_nil. reflexivity.
  - rewrite !process_cons, process_sample_with_phases. cbn [fst snd].
    rewrite IH. reflexivity.
Qed.

(** C8, as amended.  The CDF engine keeps no running phase: a call of
    [process] leaves the vector [phases_] as it found it, and what the
    call writes to [output] is the same whatever that vector holds. *)
Theorem C8_no_running_phase :
  (forall st input k, phases_ (fst (process st input k)) = phases_ st) /\
  (forall st phi input k,
     snd (process (with_phases st phi) input k) = snd (process st input k)).
Proof.
  split.
  - intros st input k. apply process_phases.
  - intros st phi input k. rewrite process_with_phases. reflexivity.
Qed.


End WithKernel.



(** C8 as stated fails: after a hop of the CDF engine on the samples 1
    and 2 the vector [phases_] still holds its zeros, where an advance by
    [freq * window_size / 2] would have left pi in bin 1. *)
Lemma C8_counterexample :
  let st := Cdf.new (K := RefKernel.kernel) 4000 1 2 1 in
  let st' := fst (Cdf.process (K := RefKernel.kernel) st [(1, 0); (2, 0)] (1 # 2)) in
  samples_in_buffer_ st' = 0%nat /\
  buffer_read_pos_ st' = 2%nat /\
  phases_ st' = [0; 0; 0] /\
  phase_advance_spec RefKernel.pi st 1 == RefKernel.pi /\
  ~ vget (phases_ st') 1 == phase_advance_spec RefKernel.pi st 1.
Proof.
  cbv zeta.
  split; [vm_compute; reflexivity |]. split; [vm_compute; reflexivity |].
  split; [vm_compute; reflexivity |]. split; [vm_compute; reflexivity |].
  apply Qneq_by_bool. vm_compute. reflexivity.
Qed.

(** C9.  The CDF engine is indifferent to block sizes: a call on a
    concatenated input leaves the engine and the output of the two calls,
    one after the other, on the two parts.  The reassignment engine is
    not: with the reference kernel, a hop of one sample and a latency of
    three samples, one call on eight samples and two calls on four
    samples each already differ in the first sample after the latency. *)
Theorem C9_block_sizes :
  (forall (K : Kernel) st a b k,
     Cdf.process (K := K) st (a ++ b) k
     = (fst (Cdf.process (fst (Cdf.process st a k)) b k),
        snd (Cdf.process st a k)
        ++ snd (Cdf.process (fst (Cdf.process st a k)) b k))) /\
  (let input : list (Q * Q) :=
     [(1, 0); (2, 0); (3, 0); (4, 0); (5, 0); (6, 0); (7, 0); (8, 0)] in
   let st := Reassign.new 4000 1 2 0 in
   let one :=
     Reassign.outputs (Reassign.process (K := RefKernel.kernel) st input 0) in
   let two :=
     Reassign.outputs
       (Reassign.process_calls (K := RefKernel.kernel) st
          [take 4 input; drop 4 input] 0) in
   Reassign.getLatencySamples st = 3%Z /\
   length one = 8%nat /\ length two = 8%nat /\
   ~ vget one 3 == vget two 3).
Proof.
  split.
  - intros K st a b k. apply process_app.
  - cbv zeta. split; [reflexivity |].
    split; [vm_compute; reflexivity |]. split; [vm_compute; reflexivity |].
    apply Qneq_by_bool. vm_compute. reflexivity.
Qed.

End FactorFacts.
